(** * hdKeysGenerator: the shard-constrained HD key search

    A shallow embedding of [hdKeysGenerator/main.go]: the coordinator loop
    [generateKeysInParallel], the comparator of [inlineSortKeysByIndexes] and
    the CLI action [generateKeys], with the properties stated about them. *)

From stdpp Require Import base list strings sorting gmap.
From Stdlib Require Import Lia Sorted.

(** ** Data model *)

(** [common.GeneratedKey].  The source reads the two index fields only; the key
    material is carried along untouched. *)
Record GeneratedKey : Type := {
  AccountIndex : nat;
  AddressIndex : nat;
  PublicKey : string;
  SecretKey : string
}.

(** Go [error] values, named after the kinds the specification lists. *)
Inductive error : Type :=
  | ConfigurationError (msg : string)
  | DerivationError (index : nat)
  | CancellationError
  | ExternalError (msg : string).

Definition Mnemonic : Type := string.

(** ** [inlineSortKeysByIndexes] (main.go, lines 172-186) *)

(** The closure handed to [sort.Slice], on the two elements [a := keys[i]] and
    [b := keys[j]]. *)
Definition less (a b : GeneratedKey) : bool :=
  if AccountIndex a <? AccountIndex b then true
  else if AddressIndex a <? AddressIndex b then true
  else false.

(** [data.Swap(i, j)] on a slice. *)
Definition swap {A : Type} (data : list A) (i j : nat) : list A :=
  match data !! i, data !! j with
  | Some x, Some y => <[i:=y]> (<[j:=x]> data)
  | _, _ => data
  end.

(** Inner loop of Go's [insertionSort_func] with lower bound 0:
    [for j := i; j > 0 && data.Less(j, j-1); j-- { data.Swap(j, j-1) }]. *)
Fixpoint insertionInner {A : Type} (lt : A → A → bool) (data : list A) (j : nat)
  : list A :=
  match j with
  | 0 => data
  | S j' =>
      match data !! j, data !! j' with
      | Some x, Some y =>
          if lt x y then insertionInner lt (swap data j j') j' else data
      | _, _ => data
      end
  end.

(** [insertionSort_func(data, 0, n)]: [for i := 1; i < n; i++ { inner loop }]. *)
Definition insertionSort_func {A : Type} (lt : A → A → bool) (data : list A)
  : list A :=
  foldl (insertionInner lt) data (seq 1 (length data - 1)).

(** [sort.Slice] is Go's standard library.  On a short slice it is exactly
    [insertionSort_func] (at most 12 elements from Go 1.19 on; before that the
    same after one gap-6 pass, which is empty up to 6 elements), and this is the
    procedure the model runs.  On a longer slice the library partitions around
    pivots first (pattern-defeating quicksort, plain quicksort before Go 1.19):
    it still only swaps elements and still sorts when the comparator is a
    strict weak order on them, but with a comparator that contradicts itself
    it may leave the keys in another arrangement than insertion sort does.
    There the model stands in for the library; every evaluation of the sort on
    concrete keys below uses at most 6 of them. *)
Definition sort_Slice {A : Type} (data : list A) (lt : A → A → bool) : list A :=
  insertionSort_func lt data.

Definition inlineSortKeysByIndexes (keys : list GeneratedKey) : list GeneratedKey :=
  sort_Slice keys less.

(** The order the sort is meant to impose: account index first, address
    index on equal account indices. *)
Definition lexLt (a b : GeneratedKey) : Prop :=
  AccountIndex a < AccountIndex b
  ∨ (AccountIndex a = AccountIndex b ∧ AddressIndex a < AddressIndex b).

Definition lexLe (a b : GeneratedKey) : Prop :=
  AccountIndex a < AccountIndex b
  ∨ (AccountIndex a = AccountIndex b ∧ AddressIndex a ≤ AddressIndex b).

Definition mkKey (account address : nat) : GeneratedKey :=
  {| AccountIndex := account; AddressIndex := address;
     PublicKey := ""%string; SecretKey := ""%string |}.

#[export] Instance lexLe_dec : RelDecision lexLe.
Proof. intros a b. unfold lexLe. apply _. Defined.

(** The keys in the order the specification asks for: ascending by account
    index, then by address index (a merge sort under [lexLe]); it is what
    [inlineSortKeysByIndexes] is compared with. *)
Definition sortedByIndexes (keys : list GeneratedKey) : list GeneratedKey :=
  merge_sort lexLe keys.

(** ** Tasks, constraints and flags *)

(** Modelled from the spec: the task type, whose declaration is missing (it
    lives in another file of the package).  One worker's contiguous slice
    [rangeStart, rangeEnd) of the index space for one iteration. *)
Record SearchTask : Type := {
  rangeStart : nat;
  rangeEnd : nat;
  useAccountIndexOnly : bool
}.

(** Modelled from the spec: the constraints type, whose declaration is
    missing (another file of the package). *)
Record constraints : Type := {
  c_numShards : nat;
  c_actualShard : option nat;
  c_projectedShard : option nat
}.

(** The fields of [parsedCliFlags] that main.go reads (the struct is declared
    in another file of the package).  [numKeys] is an unsigned count, taken
    below 2^63 so that the conversion [int(params.numKeys)] of line 117 is the
    identity. *)
Record parsedCliFlags : Type := {
  numShards : nat;
  actualShard : option nat;
  projectedShard : option nat;
  startIndex : nat;
  numKeys : nat;
  numTasks : nat;
  useAccountIndex : bool;
  exportFormat : string
}.

(** Modelled from the spec: [newConstraints], whose definition is missing
    (another file of the package).  It rejects constraint values inconsistent
    with [numShards]: a shard that is present must be below [numShards], and
    [numShards] is at least 1. *)
Definition newConstraints (numShards : nat) (actualShard projectedShard : option nat)
  : error + constraints :=
  if numShards <? 1 then inl (ConfigurationError "numShards")
  else if from_option (λ s, numShards <=? s) false actualShard
  then inl (ConfigurationError "actualShard")
  else if from_option (λ s, numShards <=? s) false projectedShard
  then inl (ConfigurationError "projectedShard")
  else inr {| c_numShards := numShards;
              c_actualShard := actualShard;
              c_projectedShard := projectedShard |}.

(** The indexes a task scans, in scanning order. *)
Definition taskIndexes (t : SearchTask) : list nat :=
  seq (rangeStart t) (rangeEnd t - rangeStart t).

(** ** The worker group ([golang.org/x/sync/errgroup]) *)

(** A [context.Context] as the search can observe it: [ctx k] tells whether
    [ctx.Done()] is closed when iteration [k] starts. *)
Definition Context : Type := nat → bool.

Definition context_Background : Context := λ _, false.

(** The group keeps the first error reported to it ([errOnce]). *)
Record Group : Type := { groupErr : option error }.

(** [errgroup.WithContext(ctx)] returns a fresh group and a context derived
    from [ctx]. *)
Definition errgroup_WithContext (ctx : Context) : Group * Context :=
  ({| groupErr := None |}, ctx).

(** What [Go] does when the function it started returns [r]. *)
Definition Group_done (g : Group) (r : option error) : Group :=
  match r, groupErr g with
  | Some e, None => {| groupErr := Some e |}
  | _, _ => g
  end.

(** [Wait] returns once every started function has returned. *)
Definition Group_Wait (g : Group) : option error := groupErr g.

(** The order in which the workers of each iteration finish. *)
Definition Schedule : Type := nat → list nat.

(** [errs.Wait()] returns when all [numTasks] workers have finished: a
    completion order names each of them once. *)
Definition validSchedule (numTasks : nat) (sched : Schedule) : Prop :=
  ∀ k, sched k ≡ₚ seq 0 numTasks.

(** A Go result pair [(keys, err)] with the identity of the error forgotten. *)
Definition forgetError (r : list GeneratedKey * option error)
  : list GeneratedKey * bool :=
  (r.1, bool_decide (is_Some r.2)).

(** How the loop of [generateKeysInParallel] is left. *)
Inductive LoopExit : Type :=
  | Done (allGeneratedKeys : list GeneratedKey)
  | Failed (err : error).

(** Line 77 of [generateKeys]: [generatedKeys[:cliFlags.numKeys]].  Go checks
    the bound against the capacity, which is at least the length; the model
    checks it against the length and panics ([None]) beyond it. *)
Definition sliceTo {A : Type} (s : list A) (n : nat) : option (list A) :=
  if n <=? length s then Some (take n s) else None.

(** How a call of the CLI action [generateKeys] ends. *)
Inductive Completion : Type :=
  | Return (err : option error)
  | Panic.

(** What a run of [generateKeys] did: the tasks whose workers were started,
    the keys handed to the exporter (if it got that far) and how the call ended
    ([None]: the loop was still running when the fuel ran out). *)
Record ActionRun : Type := {
  startedTasks : list SearchTask;
  exportedKeys : option (list GeneratedKey);
  completion : option Completion
}.

(** [export.ArgsNewExporter]. *)
Record ArgsNewExporter : Type := {
  ActualShard : option nat;
  ProjectedShard : option nat;
  StartIndex : nat;
  NumKeys : nat;
  Format : string
}.

(** Two runs left the loop the same way: both still running, both done with
    the same accumulated keys, or both failed. *)
Inductive sameExit : option LoopExit → option LoopExit → Prop :=
  | sameExit_running : sameExit None None
  | sameExit_done all : sameExit (Some (Done all)) (Some (Done all))
  | sameExit_failed e e' : sameExit (Some (Failed e)) (Some (Failed e')).

(** * trieChecker ([trieTools/trieChecker/main.go]) *)

Module trieChecker.

Definition logFilePrefix : string := "trie-checker".
Definition rootHashLength : nat := 32.
Definition addressLength : nat := 32.

(** ** [encoding/hex], Go's standard library *)

Inductive hexError : Type :=
  | InvalidByteError (c : Ascii.ascii)
  | ErrLength.

(** [fromHexChar]: the value of a hex digit, in either case. *)
Definition fromHexChar (c : Ascii.ascii) : option Z :=
  let n := Z.of_N (Ascii.N_of_ascii c) in
  if ((48 <=? n) && (n <=? 57))%Z then Some (n - 48)%Z
  else if ((97 <=? n) && (n <=? 102))%Z then Some (n - 97 + 10)%Z
  else if ((65 <=? n) && (n <=? 70))%Z then Some (n - 65 + 10)%Z
  else None.

(** [hex.Decode]: two digits make one byte [(a << 4) | b]; the first invalid
    digit stops the decoding, and an odd length is reported once all complete
    pairs and the last digit were found valid. *)
Fixpoint hex_Decode (src : string) : list Z * option hexError :=
  match src with
  | EmptyString => ([], None)
  | String p EmptyString =>
      match fromHexChar p with
      | None => ([], Some (InvalidByteError p))
      | Some _ => ([], Some ErrLength)
      end
  | String p (String q rest) =>
      match fromHexChar p with
      | None => ([], Some (InvalidByteError p))
      | Some a =>
          match fromHexChar q with
          | None => ([], Some (InvalidByteError q))
          | Some b =>
              let '(bytes, err) := hex_Decode rest in
              (Z.lor (Z.shiftl a 4) b :: bytes, err)
          end
      end
  end.

(** [hex.DecodeString]: the bytes decoded so far, and the error. *)
Definition hex_DecodeString (s : string) : list Z * option hexError :=
  hex_Decode s.

(** ** Data and collaborators *)

(** The fields of [trieToolsCommon.ContextFlagsConfig] that main.go reads. *)
Record ContextFlagsConfig : Type := {
  WorkingDir : string;
  DbDir : string;
  LogLevel : string;
  HexRootHash : string
}.

(** [core.KeyValueHolder]: a leaf of a trie. *)
Record KeyValueHolder : Type := { Key : list Z; Value : list Z }.

(** [state.UserAccountData]; [checkTrie] reads its [RootHash] only. *)
Record UserAccountData : Type := { RootHash : list Z }.

(** The trie returned by [trieToolsCommon.GetTrie].  [GetAllLeavesOnChannel]
    either fails at once or sends the leaves under a root hash on the channel
    and closes it. *)
Record Trie : Type := {
  GetAllLeavesOnChannel : list Z → error + list KeyValueHolder;
  Close : option error
}.

(** What main.go calls in other packages, and the order in which the Go
    runtime ranges over a map. *)
Record Collaborators : Type := {
  AttachFileLogger : option error;
  SetLogLevel : string → option error;
  filepath_Join : string → string → string;
  GetMaxDBValue : string → error + Z;
  NewBech32PubkeyConverter : nat → error + (list Z → string);
  GetTrie : ContextFlagsConfig → Z → error + Trie;
  Unmarshal : list Z → error + UserAccountData;
  mapRange : gmap string (list Z) → list (string * list Z)
}.

(** The errors [startProcess] returns. *)
Inductive toolError : Type :=
  | FromCollaborator (err : error)
  | DecodeRootHash (err : hexError)
  | WrongRootHashLength (expected got : nat).

(** What a run does that can be observed from outside: calls of the
    collaborators and log lines. *)
Inductive Event : Type :=
  | CallAttachFileLogger (prefix : string)
  | CallSetLogLevel (level : string)
  | CallGetMaxDBValue (path : string)
  | CallNewConverter (length : nat)
  | CallGetTrie (maxDBValue : Z)
  | CallGetAllLeaves (rootHash : list Z)
  | CallClose
  | LogInfo (msg : string) (values : list nat)
  | LogDebug (msg : string) (address : string) (rootHash : list Z)
  | LogError (err : error).

(** A computation: the events so far, and an error or a value. *)
Definition Run (A : Type) : Type := list Event * (toolError + A).

#[export] Instance Run_ret : MRet Run := λ A x, ([], inr x).

#[export] Instance Run_bind : MBind Run := λ A B f m,
  match m with
  | (trace, inl err) => (trace, inl err)
  | (trace, inr x) => let '(trace', r) := f x in (trace ++ trace', r)
  end.

Definition emit (ev : Event) : Run unit := ([ev], inr tt).

Definition fail {A : Type} (err : toolError) : Run A := ([], inl err).

(** A call that returns [(value, err)]; the error is returned as it is. *)
Definition call {A : Type} (ev : Event) (r : error + A) : Run A :=
  ([ev], match r with inl err => inl (FromCollaborator err) | inr x => inr x end).

(** A call that returns [err] only. *)
Definition check (ev : Event) (r : option error) : Run unit :=
  ([ev], match r with Some err => inl (FromCollaborator err) | None => inr tt end).

(** Does the event reach the database or the trie? *)
Definition touchesDB (ev : Event) : bool :=
  match ev with
  | CallGetMaxDBValue _ | CallGetTrie _ | CallGetAllLeaves _ | CallClose => true
  | _ => false
  end.

(** ** [checkTrie] (lines 84-160) *)

(** The body of the loop of lines 110-126, on the counters
    [(numAccountsOnMainTrie, numCodeNodes, dataTriesRootHashes)]. *)
Definition scanLeaf (env : Collaborators) (addressConverter : list Z → string)
    (st : nat * nat * gmap string (list Z)) (kv : KeyValueHolder)
  : nat * nat * gmap string (list Z) :=
  let '(numAccountsOnMainTrie, numCodeNodes, dataTriesRootHashes) := st in
  let numAccountsOnMainTrie := S numAccountsOnMainTrie in
  match Unmarshal env (Value kv) with
  | inl _ => (numAccountsOnMainTrie, S numCodeNodes, dataTriesRootHashes)
  | inr userAccount =>
      if length (RootHash userAccount) =? 0
      then (numAccountsOnMainTrie, numCodeNodes, dataTriesRootHashes)
      else (numAccountsOnMainTrie, numCodeNodes,
            <[addressConverter (Key kv) := RootHash userAccount]>
              dataTriesRootHashes)
  end.

Definition scanLeaves (env : Collaborators) (addressConverter : list Z → string)
    (leaves : list KeyValueHolder) : nat * nat * gmap string (list Z) :=
  foldl (scanLeaf env addressConverter) (0, 0, ∅) leaves.

(** The loop of lines 139-151 over the entries of the map, in the order the
    runtime yields them. *)
Fixpoint iterateDataTries (tr : Trie) (entries : list (string * list Z))
    (numDataTriesLeaves : nat) : Run nat :=
  match entries with
  | [] => mret numDataTriesLeaves
  | (address, dataRootHash) :: rest =>
      _ ← emit (LogDebug "iterating data trie" address dataRootHash);
      leaves ← call (CallGetAllLeaves dataRootHash)
                 (GetAllLeavesOnChannel tr dataRootHash);
      iterateDataTries tr rest (numDataTriesLeaves + length leaves)
  end.

(** Lines 100-159, what runs between opening the trie and the deferred
    [Close]. *)
Definition checkTrieBody (env : Collaborators)
    (addressConverter : list Z → string) (tr : Trie) (mainRootHash : list Z)
  : Run unit :=
  leaves ← call (CallGetAllLeaves mainRootHash)
             (GetAllLeavesOnChannel tr mainRootHash);
  let '(numAccountsOnMainTrie, numCodeNodes, dataTriesRootHashes) :=
    scanLeaves env addressConverter leaves in
  _ ← emit (LogInfo "parsed main trie"
              [numAccountsOnMainTrie; numCodeNodes; size dataTriesRootHashes]);
  if size dataTriesRootHashes =? 0 then mret tt
  else
    numDataTriesLeaves ←
      iterateDataTries tr (mapRange env dataTriesRootHashes) 0;
    emit (LogInfo "parsed all tries"
            [numAccountsOnMainTrie; numCodeNodes; size dataTriesRootHashes;
             numDataTriesLeaves]).

(** The deferred function of lines 95-98: it runs however the body ends, and
    an error of [Close] is only logged. *)
Definition deferClose {A : Type} (tr : Trie) (body : Run A) : Run A :=
  let '(trace, r) := body in
  (trace ++ CallClose :: match Close tr with
                         | Some err => [LogError err]
                         | None => []
                         end, r).

Definition checkTrie (env : Collaborators) (flags : ContextFlagsConfig)
    (mainRootHash : list Z) (maxDBValue : Z) : Run unit :=
  addressConverter ← call (CallNewConverter addressLength)
                       (NewBech32PubkeyConverter env addressLength);
  tr ← call (CallGetTrie maxDBValue) (GetTrie env flags maxDBValue);
  deferClose tr (checkTrieBody env addressConverter tr mainRootHash).

(** ** [startProcess] (lines 51-82), on the parsed flags *)

Definition startProcess (env : Collaborators) (flagsConfig : ContextFlagsConfig)
  : Run unit :=
  _ ← check (CallAttachFileLogger logFilePrefix) (AttachFileLogger env);
  _ ← emit (LogInfo "sanity checks..." []);
  _ ← check (CallSetLogLevel (LogLevel flagsConfig))
        (SetLogLevel env (LogLevel flagsConfig));
  rootHash ← match hex_DecodeString (HexRootHash flagsConfig) with
             | (_, Some err) => fail (DecodeRootHash err)
             | (rootHash, None) => mret rootHash
             end;
  _ ← (if length rootHash =? rootHashLength then mret tt
       else fail (WrongRootHashLength rootHashLength (length rootHash)));
  maxDBValue ← call (CallGetMaxDBValue
                       (filepath_Join env (WorkingDir flagsConfig)
                          (DbDir flagsConfig)))
                 (GetMaxDBValue env
                    (filepath_Join env (WorkingDir flagsConfig)
                       (DbDir flagsConfig)));
  _ ← emit (LogInfo "starting processing trie" []);
  checkTrie env flagsConfig rootHash maxDBValue.

(** The leaves a traversal of [rootHash] yields (none when it fails). *)
Definition leavesUnder (tr : Trie) (rootHash : list Z) : list KeyValueHolder :=
  match GetAllLeavesOnChannel tr rootHash with
  | inl _ => []
  | inr leaves => leaves
  end.

(** Is the leaf an account that owns a data trie? *)
Definition hasDataTrie (env : Collaborators) (kv : KeyValueHolder) : bool :=
  match Unmarshal env (Value kv) with
  | inl _ => false
  | inr userAccount => negb (length (RootHash userAccount) =? 0)
  end.

(** Is the leaf counted as a code node? *)
Definition isCodeNode (env : Collaborators) (kv : KeyValueHolder) : bool :=
  match Unmarshal env (Value kv) with
  | inl _ => true
  | inr _ => false
  end.

(** The root hashes whose traversal a run asked for, in order. *)
Definition traversedRoots (trace : list Event) : list (list Z) :=
  omap (λ ev, match ev with CallGetAllLeaves h => Some h | _ => None end) trace.

(** The events of one data-trie traversal. *)
Definition traversalEvents (entry : string * list Z) : list Event :=
  [LogDebug "iterating data trie" entry.1 entry.2; CallGetAllLeaves entry.2].

(** What the deferred function adds to the trace. *)
Definition closeEvents (tr : Trie) : list Event :=
  CallClose :: match Close tr with Some err => [LogError err] | None => [] end.

(** ** A small trie, used to run the model *)

Definition demoMainRoot : list Z := replicate 32 0%Z.

(** Values starting with 1 are accounts, whose root hash is the rest of the
    value; anything else does not unmarshal. *)
Definition demoUnmarshal (value : list Z) : error + UserAccountData :=
  match value with
  | 1%Z :: rootHash => inr {| RootHash := rootHash |}
  | _ => inl (ExternalError "unmarshal")
  end.

Definition demoEncode (key : list Z) : string :=
  match key with
  | 1%Z :: _ => "erd1"
  | 2%Z :: _ => "erd2"
  | 3%Z :: _ => "erd3"
  | _ => "erd"
  end.

(** The main trie holds a code node, an account without data trie and two
    accounts with data tries of two leaves and one leaf; the root hash [[9]]
    cannot be traversed. *)
Definition demoTrie (closeErr : option error) : Trie :=
  {| GetAllLeavesOnChannel := λ rootHash,
       if decide (rootHash = demoMainRoot) then
         inr [ {| Key := [0%Z]; Value := [] |};
               {| Key := [1%Z]; Value := [1%Z] |};
               {| Key := [2%Z]; Value := [1%Z; 7%Z] |};
               {| Key := [3%Z]; Value := [1%Z; 8%Z] |} ]
       else if decide (rootHash = [7%Z]) then
         inr [ {| Key := [10%Z]; Value := [] |}; {| Key := [11%Z]; Value := [] |} ]
       else if decide (rootHash = [8%Z]) then
         inr [ {| Key := [12%Z]; Value := [] |} ]
       else if decide (rootHash = [5%Z]) then
         inr [ {| Key := [0%Z]; Value := [] |}; {| Key := [1%Z]; Value := [1%Z] |} ]
       else if decide (rootHash = [6%Z]) then
         inr [ {| Key := [2%Z]; Value := [1%Z; 9%Z] |} ]
       else inl (ExternalError "no such root");
     Close := closeErr |}.

Definition demoEnv (closeErr : option error) : Collaborators :=
  {| AttachFileLogger := None;
     SetLogLevel := λ _, None;
     filepath_Join := λ dir name, (dir +:+ "/" +:+ name)%string;
     GetMaxDBValue := λ _, inr 3%Z;
     NewBech32PubkeyConverter := λ _, inr demoEncode;
     GetTrie := λ _ _, inr (demoTrie closeErr);
     Unmarshal := demoUnmarshal;
     mapRange := map_to_list |}.

Definition demoFlagsConfig (hexRootHash : string) : ContextFlagsConfig :=
  {| WorkingDir := "work"; DbDir := "db"; LogLevel := "*:INFO";
     HexRootHash := hexRootHash |}.

Definition demoHexRootHash : string :=
  "0000000000000000000000000000000000000000000000000000000000000000".

End trieChecker.

(** ** Concrete collaborators, used to run the model *)

(** The shard function of the spec's scenario A: [shard(i) = i mod numShards]. *)
Definition demoSatisfies (cs : constraints) (i : nat) : bool :=
  from_option (λ s, i `mod` c_numShards cs =? s) true (c_actualShard cs).

(** The pair a worker derives at index [i]: the account index alone varies, or
    both indexes do. *)
Definition demoKey (accountOnly : bool) (i : nat) : GeneratedKey :=
  if accountOnly then mkKey i 0 else mkKey (i `div` 2) (i `mod` 2).

(** A worker that scans its range in increasing order and keeps the keys
    satisfying the constraints; derivation fails at the indexes from
    [failFrom] on. *)
Definition demoWorker (failFrom : nat) (t : SearchTask) (_ : Mnemonic)
    (cs : constraints) : error + list GeneratedKey :=
  if failFrom <? rangeEnd t then inl (DerivationError (rangeStart t `max` failFrom))
  else inr (demoKey (useAccountIndexOnly t)
              <$> filter (λ i, demoSatisfies cs i = true) (taskIndexes t)).

Definition demoFlags (keys tasks : nat) (accountOnly : bool) : parsedCliFlags :=
  {| numShards := 2; actualShard := Some 0; projectedShard := None;
     startIndex := 0; numKeys := keys; numTasks := tasks;
     useAccountIndex := accountOnly; exportFormat := "plain-text" |}.

(** Two keys wanted, no shard constraint, both indexes varied. *)
Definition bothIndexFlags : parsedCliFlags :=
  {| numShards := 2; actualShard := None; projectedShard := None;
     startIndex := 0; numKeys := 2; numTasks := 2;
     useAccountIndex := false; exportFormat := "plain-text" |}.

Definition demoConstraints (shard : option nat) : constraints :=
  {| c_numShards := 2; c_actualShard := shard; c_projectedShard := None |}.

Definition demoTask (first : nat) : SearchTask :=
  {| rangeStart := first; rangeEnd := first + 2; useAccountIndexOnly := true |}.

(** An exporter that always succeeds. *)
Definition demoNewExporter (_ : ArgsNewExporter) : option error := None.
Definition demoExportKeys (_ : list GeneratedKey) : option error := None.

(** A context cancelled between the first and the second iteration. *)
Definition cancelledMidSearch : Context := λ k, 1 <=? k.

(** A worker that never fails and finds one key per task, at the first index
    of its range. *)
Definition steadyWorker (t : SearchTask) (_ : Mnemonic) (_ : constraints)
  : error + list GeneratedKey :=
  inr [mkKey (rangeStart t) 0].

(** Two completion orders for two workers. *)
Definition inOrder : Schedule := λ _, [0; 1].
Definition reversed : Schedule := λ _, [1; 0].

Section Search.

(** What main.go uses from the other files and packages of the repository:
    the width of a task's range, the worker, and the exporter. *)
Variable fixedTaskSize : nat.
Variable doGenerateKeys :
  SearchTask → Mnemonic → constraints → error + list GeneratedKey.
Variable export_NewExporter : ArgsNewExporter → option error.
Variable ExportKeys : list GeneratedKey → option error.

(** Modelled from the spec: [createTasks], whose definition is missing
    (another file of the package).  The batch splits
    [slidingIndex, slidingIndex + numTasks*fixedTaskSize) into [numTasks] equal
    contiguous ranges, one per task, in increasing order, and returns the index
    after the last one. *)
Fixpoint createTasks (numTasks slidingIndex : nat) (useAccountIndex : bool)
  : list SearchTask * nat :=
  match numTasks with
  | 0 => ([], slidingIndex)
  | S n =>
      let task := {| rangeStart := slidingIndex;
                     rangeEnd := slidingIndex + fixedTaskSize;
                     useAccountIndexOnly := useAccountIndex |} in
      let '(tasks, newSlidingIndex) :=
        createTasks n (slidingIndex + fixedTaskSize) useAccountIndex in
      (task :: tasks, newSlidingIndex)
  end.

(** The function started for task [i] (lines 141-149), when it finishes:
    it stores its keys in slot [i], or reports its error to the group.  Slot
    [i] exists, the batch having [numTasks] tasks. *)
Definition runWorker (mnemonic : Mnemonic) (cs : constraints)
    (tasks : list SearchTask)
    (st : list (list GeneratedKey) * Group) (i : nat)
  : list (list GeneratedKey) * Group :=
  match tasks !! i with
  | None => st
  | Some t =>
      match doGenerateKeys t mnemonic cs with
      | inl err => (st.1, Group_done st.2 (Some err))
      | inr keys => (<[i:=keys]> st.1, Group_done st.2 None)
      end
  end.

(** Lines 132-156: one iteration up to [errs.Wait()], the workers finishing
    in the order [order]. *)
Definition runTasks (ctx : Context) (mnemonic : Mnemonic) (cs : constraints)
    (numTasks : nat) (tasks : list SearchTask) (order : list nat)
  : list (list GeneratedKey) * option error :=
  let generatedKeysByTask := replicate numTasks [] in
  let '(errs, _) := errgroup_WithContext ctx in
  let '(byTask, errs') :=
    foldl (runWorker mnemonic cs tasks) (generatedKeysByTask, errs) order in
  (byTask, Group_Wait errs').

(** The loop of lines 131-166.  [k] counts the iterations done so far; the
    result pairs the tasks started with the way the loop was left ([None]
    when the fuel ran out first). *)
Fixpoint searchLoop (fuel : nat) (sched : Schedule) (ctx : Context)
    (params : parsedCliFlags) (mnemonic : Mnemonic) (cs : constraints)
    (k : nat) (allGeneratedKeys : list GeneratedKey) (slidingIndex : nat)
  : list SearchTask * option LoopExit :=
  if length allGeneratedKeys <? numKeys params then
    match fuel with
    | 0 => ([], None)
    | S fuel' =>
        let '(tasks, newSlidingIndex) :=
          createTasks (numTasks params) slidingIndex (useAccountIndex params) in
        match runTasks ctx mnemonic cs (numTasks params) tasks (sched k) with
        | (_, Some err) => (tasks, Some (Failed err))
        | (byTask, None) =>
            let '(started, exit) :=
              searchLoop fuel' sched ctx params mnemonic cs (S k)
                (allGeneratedKeys ++ concat byTask) newSlidingIndex in
            (tasks ++ started, exit)
        end
    end
  else ([], Some (Done allGeneratedKeys)).

(** [generateKeysInParallel] (lines 109-170): the Go result pair
    [(keys, err)], with the tasks started on the way. *)
Definition generateKeysInParallel (fuel : nat) (sched : Schedule)
    (ctx : Context) (params : parsedCliFlags) (mnemonic : Mnemonic)
    (cs : constraints)
  : list SearchTask * option (list GeneratedKey * option error) :=
  let '(started, exit) :=
    searchLoop fuel sched ctx params mnemonic cs 0 [] (startIndex params) in
  (started,
   match exit with
   | None => None
   | Some (Failed err) => Some ([], Some err)
   | Some (Done allGeneratedKeys) =>
       Some (inlineSortKeysByIndexes allGeneratedKeys, None)
   end).

(** [askMnemonic] (lines 88-97), on what [readLine] returned. *)
Definition askMnemonic (readLine : error + string) : error + Mnemonic :=
  match readLine with
  | inl err => inl err
  | inr line => inr line
  end.

(** [generateKeys] (lines 48-86), the CLI action. *)
Definition generateKeys (fuel : nat) (sched : Schedule)
    (cliFlags : parsedCliFlags) (readLine : error + string) : ActionRun :=
  match newConstraints (numShards cliFlags) (actualShard cliFlags)
          (projectedShard cliFlags) with
  | inl err => {| startedTasks := []; exportedKeys := None;
                  completion := Some (Return (Some err)) |}
  | inr cs =>
      match export_NewExporter
              {| ActualShard := actualShard cliFlags;
                 ProjectedShard := projectedShard cliFlags;
                 StartIndex := startIndex cliFlags;
                 NumKeys := numKeys cliFlags;
                 Format := exportFormat cliFlags |} with
      | Some err => {| startedTasks := []; exportedKeys := None;
                       completion := Some (Return (Some err)) |}
      | None =>
          match askMnemonic readLine with
          | inl err => {| startedTasks := []; exportedKeys := None;
                          completion := Some (Return (Some err)) |}
          | inr mnemonic =>
              match generateKeysInParallel fuel sched context_Background
                      cliFlags mnemonic cs with
              | (started, None) =>
                  {| startedTasks := started; exportedKeys := None;
                     completion := None |}
              | (started, Some (_, Some err)) =>
                  {| startedTasks := started; exportedKeys := None;
                     completion := Some (Return (Some err)) |}
              | (started, Some (generatedKeys, None)) =>
                  match sliceTo generatedKeys (numKeys cliFlags) with
                  | None => {| startedTasks := started; exportedKeys := None;
                               completion := Some Panic |}
                  | Some generatedKeys' =>
                      {| startedTasks := started;
                         exportedKeys := Some generatedKeys';
                         completion := Some (Return (ExportKeys generatedKeys')) |}
                  end
              end
          end
      end
  end.

(** *** What a worker contributes *)

(** The keys task [t] puts in its slot: its result, or nothing when it
    fails (the slot keeps its initial nil). *)
Definition workerKeys (mnemonic : Mnemonic) (cs : constraints) (t : SearchTask)
  : list GeneratedKey :=
  match doGenerateKeys t mnemonic cs with
  | inl _ => []
  | inr keys => keys
  end.

(** The error worker [i] reports to the group, if any. *)
Definition workerError (mnemonic : Mnemonic) (cs : constraints)
    (tasks : list SearchTask) (i : nat) : option error :=
  match tasks !! i with
  | None => None
  | Some t =>
      match doGenerateKeys t mnemonic cs with
      | inl err => Some err
      | inr _ => None
      end
  end.

(** The error [errs.Wait()] returns: the one of the worker that failed
    first in completion order. *)
Definition firstError (mnemonic : Mnemonic) (cs : constraints)
    (tasks : list SearchTask) (order : list nat) : option error :=
  head (omap (workerError mnemonic cs tasks) order).

(** Successive calls of the allocator, each starting where the previous one
    ended: the tasks of all the batches and the final sliding index. *)
Fixpoint batches (calls numTasks slidingIndex : nat) (useAccountIndex : bool)
  : list SearchTask * nat :=
  match calls with
  | 0 => ([], slidingIndex)
  | S calls' =>
      let '(tasks, newSlidingIndex) :=
        createTasks numTasks slidingIndex useAccountIndex in
      let '(later, final) :=
        batches calls' numTasks newSlidingIndex useAccountIndex in
      (tasks ++ later, final)
  end.

(** The ranges of [tasks] follow one another from [from] to [to]: each starts
    where the previous one ends and spans [fixedTaskSize] indexes. *)
Fixpoint chained (from : nat) (tasks : list SearchTask) (to : nat) : Prop :=
  match tasks with
  | [] => from = to
  | t :: tasks' =>
      rangeStart t = from ∧ rangeEnd t = from + fixedTaskSize
      ∧ chained (rangeEnd t) tasks' to
  end.

(** *** The sort *)

Lemma swap_length {A : Type} (data : list A) i j :
  length (swap data i j) = length data.
Proof.
  unfold swap. destruct (data !! i), (data !! j); try done.
  by rewrite !length_insert.
Qed.

Lemma swap_adjacent {A : Type} (data : list A) j x y :
  data !! S j = Some x → data !! j = Some y →
  ∃ l1 l2, data = l1 ++ y :: x :: l2 ∧ swap data (S j) j = l1 ++ x :: y :: l2.
Proof.
  revert data. induction j as [|j IH]; intros data Hx Hy.
  - destruct data as [|a [|b data]]; simplify_eq/=.
    by exists [], data.
  - destruct data as [|a data]; [done|]. simpl in Hx, Hy.
    destruct (IH data Hx Hy) as (l1 & l2 & -> & Hsw).
    exists (a :: l1), l2. split; [done|].
    unfold swap in *. simpl. rewrite Hx, Hy in *. simpl.
    by rewrite Hsw.
Qed.

Lemma swap_adjacent_perm {A : Type} (data : list A) j :
  swap data (S j) j ≡ₚ data.
Proof.
  destruct (data !! S j) as [x|] eqn:Hx; [|by unfold swap; rewrite Hx].
  destruct (data !! j) as [y|] eqn:Hy; [|by unfold swap; rewrite Hx, Hy].
  destruct (swap_adjacent data j x y Hx Hy) as (l1 & l2 & Hd & ->).
  rewrite Hd. apply Permutation_app_head, perm_swap.
Qed.

Lemma insertionInner_perm {A : Type} (lt : A → A → bool) data j :
  insertionInner lt data j ≡ₚ data.
Proof.
  revert data. induction j as [|j IH]; intros data; simpl; [done|].
  destruct (data !! S j); [|done]. destruct (data !! j); [|done].
  destruct (lt _ _); [|done].
  rewrite IH. apply swap_adjacent_perm.
Qed.

Lemma sort_Slice_perm {A : Type} (lt : A → A → bool) data :
  sort_Slice data lt ≡ₚ data.
Proof.
  unfold sort_Slice, insertionSort_func.
  generalize (seq 1 (length data - 1)). intros passes. revert data.
  induction passes as [|i passes IH]; intros data; simpl; [done|].
  rewrite IH. apply insertionInner_perm.
Qed.

Lemma inlineSortKeysByIndexes_perm keys : inlineSortKeysByIndexes keys ≡ₚ keys.
Proof. apply sort_Slice_perm. Qed.

Lemma inlineSortKeysByIndexes_length keys :
  length (inlineSortKeysByIndexes keys) = length keys.
Proof. apply Permutation_length, inlineSortKeysByIndexes_perm. Qed.

(** *** The allocator *)

Lemma createTasks_length n i u : length (createTasks n i u).1 = n.
Proof.
  revert i. induction n as [|n IH]; intros i; simpl; [done|].
  specialize (IH (i + fixedTaskSize)).
  destruct (createTasks n (i + fixedTaskSize) u) as [ts j]. simpl in *. lia.
Qed.

Lemma createTasks_next n i u : (createTasks n i u).2 = i + n * fixedTaskSize.
Proof.
  revert i. induction n as [|n IH]; intros i; simpl; [lia|].
  specialize (IH (i + fixedTaskSize)).
  destruct (createTasks n (i + fixedTaskSize) u) as [ts j]. simpl in *. lia.
Qed.

Lemma createTasks_indexes n i u :
  concat (taskIndexes <$> (createTasks n i u).1) = seq i (n * fixedTaskSize).
Proof.
  revert i. induction n as [|n IH]; intros i; simpl; [done|].
  specialize (IH (i + fixedTaskSize)).
  destruct (createTasks n (i + fixedTaskSize) u) as [ts j].
  cbn [fst] in *. rewrite fmap_cons. cbn [concat]. rewrite IH.
  unfold taskIndexes. cbn [rangeStart rangeEnd].
  replace (i + fixedTaskSize - i) with fixedTaskSize by lia.
  by rewrite <- seq_app.
Qed.

(** *** The worker group *)

Lemma runWorker_length m cs tasks st i :
  length (runWorker m cs tasks st i).1 = length st.1.
Proof.
  unfold runWorker. destruct (tasks !! i); [|done].
  destruct (doGenerateKeys _ _ _); simpl; [done|]. by rewrite length_insert.
Qed.

Lemma foldl_runWorker_length m cs tasks order st :
  length (foldl (runWorker m cs tasks) st order).1 = length st.1.
Proof.
  revert st. induction order as [|i order IH]; intros st; simpl; [done|].
  by rewrite IH, runWorker_length.
Qed.

(** Slot [j] after worker [i] has finished. *)
Lemma runWorker_lookup m cs tasks st i j t :
  tasks !! j = Some t → j < length st.1 →
  (runWorker m cs tasks st i).1 !! j
  = if decide (i = j) then
      match doGenerateKeys t m cs with
      | inl _ => st.1 !! j
      | inr keys => Some keys
      end
    else st.1 !! j.
Proof.
  intros Ht Hj. unfold runWorker. case_decide as Hij.
  - subst i. rewrite Ht. destruct (doGenerateKeys _ _ _); simpl; [done|].
    by rewrite list_lookup_insert_eq.
  - destruct (tasks !! i); [|done].
    destruct (doGenerateKeys _ _ _); simpl; [done|].
    by rewrite list_lookup_insert_ne.
Qed.

(** Slot [j] once the workers of [order] have finished: it only depends on
    whether worker [j] is among them. *)
Lemma foldl_runWorker_lookup m cs tasks order st j t :
  tasks !! j = Some t → j < length st.1 →
  (foldl (runWorker m cs tasks) st order).1 !! j
  = if decide (j ∈ order) then
      match doGenerateKeys t m cs with
      | inl _ => st.1 !! j
      | inr keys => Some keys
      end
    else st.1 !! j.
Proof.
  intros Ht. revert st. induction order as [|i order IH]; intros st Hj; simpl.
  - done.
  - rewrite IH by (by rewrite runWorker_length).
    rewrite (runWorker_lookup _ _ _ _ _ _ t) by done.
    destruct (decide (i = j)) as [->|Hij].
    + rewrite (decide_True (P := j ∈ j :: order)) by apply list_elem_of_here.
      by repeat case_decide; destruct (doGenerateKeys _ _ _).
    + destruct (decide (j ∈ order)) as [Hin|Hin].
      * by rewrite (decide_True (P := j ∈ i :: order))
          by (by apply list_elem_of_further).
      * rewrite (decide_False (P := j ∈ i :: order)); [done|].
        intros [?|?]%elem_of_cons; congruence.
Qed.

Lemma foldl_runWorker_err m cs tasks order st :
  groupErr (foldl (runWorker m cs tasks) st order).2
  = match groupErr st.2 with
    | Some e => Some e
    | None => firstError m cs tasks order
    end.
Proof.
  unfold firstError. revert st.
  induction order as [|i order IH]; intros st; simpl.
  - by destruct (groupErr st.2).
  - rewrite IH. destruct st as [slots [[e0|]]];
      unfold runWorker, workerError; destruct (tasks !! i) as [t|]; simpl;
      try done; by destruct (doGenerateKeys t m cs).
Qed.

Lemma runTasks_err ctx m cs n tasks order :
  (runTasks ctx m cs n tasks order).2 = firstError m cs tasks order.
Proof.
  unfold runTasks, errgroup_WithContext, Group_Wait.
  pose proof (foldl_runWorker_err m cs tasks order
                (replicate n [], {| groupErr := None |})) as Herr.
  by destruct (foldl _ _ _).
Qed.

(** Once every worker has finished, slot [i] holds what task [i] found,
    whatever the completion order. *)
Lemma runTasks_slots ctx m cs n tasks order :
  length tasks = n → order ≡ₚ seq 0 n →
  (runTasks ctx m cs n tasks order).1 = workerKeys m cs <$> tasks.
Proof.
  intros Hlen Hperm. unfold runTasks, errgroup_WithContext.
  set (st := (replicate n [], {| groupErr := None |})).
  pose proof (foldl_runWorker_length m cs tasks order st) as Hl.
  pose proof (foldl_runWorker_lookup m cs tasks order st) as Hlk.
  destruct (foldl _ _ _) as [byTask errs']. simpl in *.
  rewrite length_replicate in Hl, Hlk.
  apply list_eq. intros j. rewrite list_lookup_fmap.
  destruct (tasks !! j) as [t|] eqn:Ht; simpl.
  - assert (j < n) as Hj by (rewrite <- Hlen; by eapply lookup_lt_Some).
    rewrite (Hlk j t Ht Hj), decide_True.
    + unfold workerKeys. destruct (doGenerateKeys t m cs); [|done].
      by apply lookup_replicate_2.
    + rewrite Hperm. apply elem_of_seq. lia.
  - apply lookup_ge_None. apply lookup_ge_None in Ht. lia.
Qed.

Lemma workerError_Some m cs tasks i e :
  workerError m cs tasks i = Some e
  ↔ ∃ t, tasks !! i = Some t ∧ doGenerateKeys t m cs = inl e.
Proof.
  unfold workerError. destruct (tasks !! i) as [t|].
  - destruct (doGenerateKeys t m cs) as [e'|keys] eqn:E; split.
    + intros [= ->]. eauto.
    + intros (t' & [= <-] & H). congruence.
    + done.
    + intros (t' & [= <-] & H). congruence.
  - split; [done|]. by intros (t & ? & _).
Qed.

Lemma firstError_Some m cs tasks order e :
  firstError m cs tasks order = Some e →
  ∃ i t, i ∈ order ∧ tasks !! i = Some t ∧ doGenerateKeys t m cs = inl e.
Proof.
  unfold firstError. intros Hhd.
  assert (e ∈ omap (workerError m cs tasks) order) as Hin.
  { destruct (omap _ order); simplify_eq/=. apply list_elem_of_here. }
  apply list_elem_of_omap in Hin as (i & Hi & Herr).
  apply workerError_Some in Herr as (t & ? & ?). eauto.
Qed.

Lemma firstError_None m cs tasks order :
  firstError m cs tasks order = None
  ↔ ∀ i, i ∈ order → workerError m cs tasks i = None.
Proof.
  unfold firstError. induction order as [|i order IH]; simpl.
  - split; [|done]. intros _ i Hi. by apply elem_of_nil in Hi.
  - destruct (workerError m cs tasks i) as [e|] eqn:E; simpl.
    + split; [done|]. intros H. specialize (H i (list_elem_of_here _ _)).
      congruence.
    + rewrite IH. split.
      * intros H j [->|Hj]%elem_of_cons; auto.
      * intros H j Hj. apply H. by apply list_elem_of_further.
Qed.

(** Whether an iteration fails does not depend on the completion order. *)
Lemma firstError_None_perm m cs tasks order order' :
  order ≡ₚ order' →
  firstError m cs tasks order = None → firstError m cs tasks order' = None.
Proof.
  intros Hperm. rewrite !firstError_None. intros H i Hi. apply H.
  by rewrite Hperm.
Qed.

(** An iteration without error: every task of the batch succeeded. *)
Lemma firstError_None_tasks m cs n tasks order t :
  order ≡ₚ seq 0 n → length tasks = n →
  firstError m cs tasks order = None → t ∈ tasks →
  doGenerateKeys t m cs = inr (workerKeys m cs t).
Proof.
  intros Hperm Hlen Hnone (i & Hi)%list_elem_of_lookup.
  rewrite firstError_None in Hnone.
  assert (i ∈ order) as Hin.
  { rewrite Hperm. apply elem_of_seq. apply lookup_lt_Some in Hi. lia. }
  specialize (Hnone i Hin). unfold workerError in Hnone. rewrite Hi in Hnone.
  unfold workerKeys. by destruct (doGenerateKeys t m cs).
Qed.

(** *** The loop *)

Lemma searchLoop_exit fuel sched ctx params m cs k all idx :
  numKeys params ≤ length all →
  searchLoop fuel sched ctx params m cs k all idx = ([], Some (Done all)).
Proof.
  intros Hlen. destruct fuel; simpl;
    by rewrite (proj2 (Nat.ltb_ge _ _) Hlen).
Qed.

Lemma searchLoop_fuel_0 sched ctx params m cs k all idx :
  length all < numKeys params →
  searchLoop 0 sched ctx params m cs k all idx = ([], None).
Proof. intros Hlen. simpl. by rewrite (proj2 (Nat.ltb_lt _ _) Hlen). Qed.

Lemma searchLoop_step fuel sched ctx params m cs k all idx :
  length all < numKeys params →
  searchLoop (S fuel) sched ctx params m cs k all idx
  = let tasks :=
      (createTasks (numTasks params) idx (useAccountIndex params)).1 in
    match runTasks ctx m cs (numTasks params) tasks (sched k) with
    | (_, Some err) => (tasks, Some (Failed err))
    | (byTask, None) =>
        let '(started, exit) :=
          searchLoop fuel sched ctx params m cs (S k) (all ++ concat byTask)
            (idx + numTasks params * fixedTaskSize) in
        (tasks ++ started, exit)
    end.
Proof.
  intros Hlen. cbn [searchLoop]. rewrite (proj2 (Nat.ltb_lt _ _) Hlen).
  pose proof (createTasks_next (numTasks params) idx (useAccountIndex params))
    as Hnext.
  destruct (createTasks _ _ _) as [tasks newIdx]. simpl in *. by subst newIdx.
Qed.

(** The loop is only left normally once enough keys are accumulated. *)
Lemma searchLoop_Done fuel sched ctx params m cs k all idx started all' :
  searchLoop fuel sched ctx params m cs k all idx = (started, Some (Done all')) →
  numKeys params ≤ length all'.
Proof.
  revert k all idx started.
  induction fuel as [|fuel IH]; intros k all idx started Hrun;
    destruct (decide (length all < numKeys params)) as [Hlt|Hge].
  - rewrite searchLoop_fuel_0 in Hrun by done. congruence.
  - rewrite searchLoop_exit in Hrun by lia. simplify_eq. lia.
  - rewrite searchLoop_step in Hrun by done. cbn zeta in Hrun.
    destruct (runTasks _ _ _ _ _ _) as [byTask [err|]]; [congruence|].
    destruct (searchLoop fuel _ _ _ _ _ _ _ _) as [started' exit] eqn:Hrec.
    simplify_eq. by eapply IH.
  - rewrite searchLoop_exit in Hrun by lia. simplify_eq. lia.
Qed.

(** The context is handed to [errgroup.WithContext] and never looked at. *)
Lemma searchLoop_ctx fuel sched ctx ctx' params m cs k all idx :
  searchLoop fuel sched ctx params m cs k all idx
  = searchLoop fuel sched ctx' params m cs k all idx.
Proof.
  revert k all idx. induction fuel as [|fuel IH]; intros k all idx; [done|].
  cbn [searchLoop]. destruct (_ <? _); [|done].
  destruct (createTasks _ _ _) as [tasks newIdx].
  change (runTasks ctx m cs (numTasks params) tasks (sched k))
    with (runTasks ctx' m cs (numTasks params) tasks (sched k)).
  destruct (runTasks _ _ _ _ _ _) as [byTask [err|]]; [done|].
  by rewrite IH.
Qed.

(** The tasks started by the loop are those of successive allocator calls. *)
Lemma searchLoop_started fuel sched ctx params m cs k all idx :
  ∃ calls, calls ≤ fuel
    ∧ (searchLoop fuel sched ctx params m cs k all idx).1
      = (batches calls (numTasks params) idx (useAccountIndex params)).1.
Proof.
  revert k all idx.
  induction fuel as [|fuel IH]; intros k all idx;
    destruct (decide (length all < numKeys params)) as [Hlt|Hge].
  - exists 0. by rewrite searchLoop_fuel_0.
  - exists 0. by rewrite searchLoop_exit by lia.
  - rewrite searchLoop_step by done. cbn zeta.
    pose proof (createTasks_next (numTasks params) idx (useAccountIndex params))
      as Hnext.
    destruct (runTasks _ _ _ _ _ _) as [byTask [err|]].
    + exists 1. split; [lia|]. simpl.
      destruct (createTasks _ _ _) as [tasks newIdx]. simpl.
      by rewrite app_nil_r.
    + destruct (IH (S k) (all ++ concat byTask)
                  (idx + numTasks params * fixedTaskSize))
        as (calls & Hle & Heq).
      destruct (searchLoop fuel _ _ _ _ _ _ _ _) as [started exit].
      exists (S calls). split; [lia|]. simpl in *.
      destruct (createTasks _ _ _) as [tasks newIdx]. simpl in *. subst newIdx.
      destruct (batches calls _ _ _) as [later final]. simpl in *.
      by subst.
  - exists 0. split; [lia|]. by rewrite searchLoop_exit by lia.
Qed.

Lemma batches_next calls n i u :
  (batches calls n i u).2 = i + calls * (n * fixedTaskSize).
Proof.
  revert i. induction calls as [|calls IH]; intros i; simpl; [lia|].
  pose proof (createTasks_next n i u) as Hnext.
  destruct (createTasks n i u) as [tasks newIdx]. simpl in Hnext.
  specialize (IH newIdx). destruct (batches calls n newIdx u) as [later final].
  simpl in *. lia.
Qed.

Lemma batches_indexes calls n i u :
  concat (taskIndexes <$> (batches calls n i u).1)
  = seq i (calls * (n * fixedTaskSize)).
Proof.
  revert i. induction calls as [|calls IH]; intros i; simpl; [done|].
  pose proof (createTasks_next n i u) as Hnext.
  pose proof (createTasks_indexes n i u) as Hidx.
  destruct (createTasks n i u) as [tasks newIdx]. simpl in Hnext, Hidx.
  specialize (IH newIdx). destruct (batches calls n newIdx u) as [later final].
  cbn [fst] in *. rewrite fmap_app, concat_app, Hidx, IH. subst newIdx.
  by rewrite <- seq_app.
Qed.

Lemma chained_app from mid to tasks tasks' :
  chained from tasks mid → chained mid tasks' to →
  chained from (tasks ++ tasks') to.
Proof.
  revert from. induction tasks as [|t tasks IH]; intros from; simpl.
  - by intros ->.
  - intros (? & ? & ?) ?. eauto.
Qed.

Lemma createTasks_chained n i u :
  chained i (createTasks n i u).1 (createTasks n i u).2.
Proof.
  revert i. induction n as [|n IH]; intros i; simpl; [done|].
  specialize (IH (i + fixedTaskSize)).
  destruct (createTasks n (i + fixedTaskSize) u) as [tasks newIdx].
  by simpl in *.
Qed.

Lemma batches_chained calls n i u :
  chained i (batches calls n i u).1 (batches calls n i u).2.
Proof.
  revert i. induction calls as [|calls IH]; intros i; simpl; [done|].
  pose proof (createTasks_chained n i u) as Hc.
  destruct (createTasks n i u) as [tasks newIdx]. specialize (IH newIdx).
  destruct (batches calls n newIdx u) as [later final]. simpl in *.
  by eapply chained_app.
Qed.

(** *** Iterations under a completion order *)

Lemma searchLoop_valid_step fuel sched ctx params m cs k all idx :
  validSchedule (numTasks params) sched →
  length all < numKeys params →
  searchLoop (S fuel) sched ctx params m cs k all idx
  = let tasks :=
      (createTasks (numTasks params) idx (useAccountIndex params)).1 in
    match firstError m cs tasks (sched k) with
    | Some err => (tasks, Some (Failed err))
    | None =>
        let '(started, exit) :=
          searchLoop fuel sched ctx params m cs (S k)
            (all ++ concat (workerKeys m cs <$> tasks))
            (idx + numTasks params * fixedTaskSize) in
        (tasks ++ started, exit)
    end.
Proof.
  intros Hvalid Hlen. rewrite searchLoop_step by done. cbn zeta.
  set (tasks := (createTasks _ _ _).1).
  pose proof (runTasks_err ctx m cs (numTasks params) tasks (sched k)) as Herr.
  pose proof (runTasks_slots ctx m cs (numTasks params) tasks (sched k)
                (createTasks_length _ _ _) (Hvalid k)) as Hslots.
  destruct (runTasks _ _ _ _ _ _) as [byTask err]. simpl in *. by subst.
Qed.

Lemma searchLoop_schedule fuel sched sched' ctx params m cs k all idx :
  validSchedule (numTasks params) sched →
  validSchedule (numTasks params) sched' →
  (searchLoop fuel sched ctx params m cs k all idx).1
  = (searchLoop fuel sched' ctx params m cs k all idx).1
  ∧ sameExit (searchLoop fuel sched ctx params m cs k all idx).2
      (searchLoop fuel sched' ctx params m cs k all idx).2.
Proof.
  intros Hv Hv'. revert k all idx.
  induction fuel as [|fuel IH]; intros k all idx;
    destruct (decide (length all < numKeys params)) as [Hlt|Hge].
  - rewrite !searchLoop_fuel_0 by done. split; [done|constructor].
  - rewrite !searchLoop_exit by lia. split; [done|constructor].
  - rewrite !searchLoop_valid_step by done. cbn zeta.
    set (tasks := (createTasks _ _ _).1).
    assert (sched k ≡ₚ sched' k) as Hperm by (by rewrite (Hv k), (Hv' k)).
    destruct (firstError m cs tasks (sched k)) as [e|] eqn:He;
      destruct (firstError m cs tasks (sched' k)) as [e'|] eqn:He'.
    + split; [done|constructor].
    + apply (firstError_None_perm _ _ _ _ (sched k)) in He'; [congruence|done].
    + apply (firstError_None_perm _ _ _ _ (sched' k)) in He; [congruence|done].
    + specialize (IH (S k) (all ++ concat (workerKeys m cs <$> tasks))
                    (idx + numTasks params * fixedTaskSize)).
      destruct (searchLoop fuel sched _ _ _ _ _ _ _) as [st ex].
      destruct (searchLoop fuel sched' _ _ _ _ _ _ _) as [st' ex'].
      simpl in *. destruct IH as [-> ?]. done.
  - rewrite !searchLoop_exit by lia. split; [done|constructor].
Qed.

(** A failing worker in the batch of the current iteration ends the loop
    there, with the error of the worker that failed first. *)
Lemma searchLoop_abort fuel sched ctx params m cs k all idx t e0 :
  validSchedule (numTasks params) sched →
  length all < numKeys params →
  t ∈ (createTasks (numTasks params) idx (useAccountIndex params)).1 →
  doGenerateKeys t m cs = inl e0 →
  ∃ e, firstError m cs
         (createTasks (numTasks params) idx (useAccountIndex params)).1
         (sched k) = Some e
    ∧ searchLoop (S fuel) sched ctx params m cs k all idx
      = ((createTasks (numTasks params) idx (useAccountIndex params)).1,
         Some (Failed e)).
Proof.
  intros Hv Hlt Hin Hfail. rewrite searchLoop_valid_step by done. cbn zeta.
  destruct (firstError _ _ _ _) as [e|] eqn:He; [by exists e|].
  eapply firstError_None_tasks in He; [|apply Hv|apply createTasks_length|done].
  congruence.
Qed.

(** Whenever a started worker has failed, the loop has been left with an
    error, in the iteration of the first failure. *)
Lemma searchLoop_failure fuel sched ctx params m cs k all idx started exit t e0 :
  validSchedule (numTasks params) sched →
  searchLoop fuel sched ctx params m cs k all idx = (started, exit) →
  t ∈ started → doGenerateKeys t m cs = inl e0 →
  ∃ e earlier idx' k',
    let batch :=
      (createTasks (numTasks params) idx' (useAccountIndex params)).1 in
    exit = Some (Failed e) ∧ started = earlier ++ batch
    ∧ (∀ t', t' ∈ earlier → doGenerateKeys t' m cs = inr (workerKeys m cs t'))
    ∧ firstError m cs batch (sched k') = Some e.
Proof.
  intros Hv. revert k all idx started exit.
  induction fuel as [|fuel IH]; intros k all idx started exit Hrun Hin Hfail;
    destruct (decide (length all < numKeys params)) as [Hlt|Hge].
  - rewrite searchLoop_fuel_0 in Hrun by done. injection Hrun as <- <-.
    by apply elem_of_nil in Hin.
  - rewrite searchLoop_exit in Hrun by lia. injection Hrun as <- <-.
    by apply elem_of_nil in Hin.
  - rewrite searchLoop_valid_step in Hrun by done. cbn zeta in Hrun.
    remember (createTasks (numTasks params) idx (useAccountIndex params)).1
      as tasks eqn:Htasks.
    destruct (firstError m cs tasks (sched k)) as [e|] eqn:He.
    + injection Hrun as <- <-. exists e, [], idx, k. cbn zeta.
      rewrite <- Htasks. split_and!; try done.
      intros t' Ht'. by apply elem_of_nil in Ht'.
    + destruct (searchLoop fuel _ _ _ _ _ _ _ _) as [st ex] eqn:Hrec.
      injection Hrun as <- <-.
      assert (∀ t', t' ∈ tasks →
                doGenerateKeys t' m cs = inr (workerKeys m cs t')) as Hok.
      { intros t' Ht'. eapply firstError_None_tasks;
          [apply Hv| |done|done]. rewrite Htasks. apply createTasks_length. }
      apply elem_of_app in Hin as [Hin|Hin].
      { rewrite (Hok t Hin) in Hfail. done. }
      destruct (IH _ _ _ _ _ Hrec Hin Hfail)
        as (e & earlier & idx' & k' & -> & -> & Hearlier & Hfirst).
      exists e, (tasks ++ earlier), idx', k'. cbn zeta. split_and!; try done.
      * by rewrite app_assoc.
      * intros t' [Ht'|Ht']%elem_of_app; [by apply Hok|by apply Hearlier].
  - rewrite searchLoop_exit in Hrun by lia. injection Hrun as <- <-.
    by apply elem_of_nil in Hin.
Qed.

Lemma foldl_runWorker_no_tasks m cs order st :
  foldl (runWorker m cs []) st order = st.
Proof.
  revert st. induction order as [|i order IH]; intros st; simpl; [done|].
  rewrite IH. unfold runWorker. by rewrite lookup_nil.
Qed.

(** An error that leaves the loop is the error of a started worker. *)
Lemma searchLoop_Failed fuel sched ctx params m cs k all idx started e :
  searchLoop fuel sched ctx params m cs k all idx = (started, Some (Failed e)) →
  ∃ t, t ∈ started ∧ doGenerateKeys t m cs = inl e.
Proof.
  revert k all idx started.
  induction fuel as [|fuel IH]; intros k all idx started Hrun;
    destruct (decide (length all < numKeys params)) as [Hlt|Hge].
  - rewrite searchLoop_fuel_0 in Hrun by done. congruence.
  - rewrite searchLoop_exit in Hrun by lia. congruence.
  - rewrite searchLoop_step in Hrun by done. cbn zeta in Hrun.
    remember (createTasks (numTasks params) idx (useAccountIndex params)).1
      as tasks eqn:Htasks.
    pose proof (runTasks_err ctx m cs (numTasks params) tasks (sched k)) as Herr.
    destruct (runTasks _ _ _ _ _ _) as [byTask [err|]]; simpl in Herr.
    + injection Hrun as <- <-. symmetry in Herr.
      apply firstError_Some in Herr as (i & t & _ & Ht & Hfail).
      exists t. split; [|done]. apply list_elem_of_lookup. eauto.
    + destruct (searchLoop fuel _ _ _ _ _ _ _ _) as [st ex] eqn:Hrec.
      injection Hrun as <- ->. destruct (IH _ _ _ _ Hrec) as (t & Ht & Hfail).
      exists t. split; [|done]. apply elem_of_app. by right.
  - rewrite searchLoop_exit in Hrun by lia. congruence.
Qed.

Lemma generateKeys_rejected fuel sched cliFlags readLine err :
  newConstraints (numShards cliFlags) (actualShard cliFlags)
    (projectedShard cliFlags) = inl err →
  generateKeys fuel sched cliFlags readLine
  = {| startedTasks := []; exportedKeys := None;
       completion := Some (Return (Some err)) |}.
Proof. intros Hnew. unfold generateKeys. by rewrite Hnew. Qed.

(** *** Properties of the search *)

Lemma generateKeysInParallel_loop fuel sched ctx params m cs :
  generateKeysInParallel fuel sched ctx params m cs
  = ((searchLoop fuel sched ctx params m cs 0 [] (startIndex params)).1,
     match (searchLoop fuel sched ctx params m cs 0 [] (startIndex params)).2 with
     | None => None
     | Some (Failed err) => Some ([], Some err)
     | Some (Done all) => Some (inlineSortKeysByIndexes all, None)
     end).
Proof. unfold generateKeysInParallel. by destruct (searchLoop _ _ _ _ _ _ _ _ _). Qed.

Lemma generateKeysInParallel_success fuel sched ctx params m cs started keys :
  generateKeysInParallel fuel sched ctx params m cs
  = (started, Some (keys, None)) →
  ∃ all,
    searchLoop fuel sched ctx params m cs 0 [] (startIndex params)
    = (started, Some (Done all))
    ∧ keys = inlineSortKeysByIndexes all
    ∧ numKeys params ≤ length all.
Proof.
  rewrite generateKeysInParallel_loop. intros Hrun.
  destruct (searchLoop _ _ _ _ _ _ _ _ _) as [st [[all|err]|]] eqn:Hloop;
    simplify_eq/=.
  exists all. split_and!; try done. by eapply searchLoop_Done.
Qed.

(** C3: when a worker fails, the search returns nil keys and the error of
    the worker that failed first in that iteration; every earlier iteration
    was free of failures and no iteration follows the failing one. *)
Theorem worker_failure_aborts_search
    fuel sched ctx params m cs started result t e0 :
  validSchedule (numTasks params) sched →
  generateKeysInParallel fuel sched ctx params m cs = (started, result) →
  t ∈ started → doGenerateKeys t m cs = inl e0 →
  ∃ e earlier idx k,
    let batch :=
      (createTasks (numTasks params) idx (useAccountIndex params)).1 in
    result = Some ([], Some e)
    ∧ started = earlier ++ batch
    ∧ (∀ t', t' ∈ earlier → doGenerateKeys t' m cs = inr (workerKeys m cs t'))
    ∧ firstError m cs batch (sched k) = Some e
    ∧ ∃ t', t' ∈ batch ∧ doGenerateKeys t' m cs = inl e.
Proof.
  intros Hv Hrun Hin Hfail. rewrite generateKeysInParallel_loop in Hrun.
  destruct (searchLoop _ _ _ _ _ _ _ _ _) as [st ex] eqn:Hloop.
  injection Hrun as <- <-.
  destruct (searchLoop_failure _ _ _ _ _ _ _ _ _ _ _ _ _ Hv Hloop Hin Hfail)
    as (e & earlier & idx & k & -> & -> & Hearlier & Hfirst).
  exists e, earlier, idx, k. cbn zeta. split_and!; try done.
  destruct (firstError_Some _ _ _ _ _ Hfirst) as (i & t' & _ & Ht' & He).
  exists t'. split; [|done]. apply list_elem_of_lookup. eauto.
Qed.

(** C4: the tasks started, the keys returned and whether the search fails
    are the same under any two completion orders; each iteration fills the
    slots by task number, so the keys are gathered in task order. *)
Theorem search_independent_of_schedule fuel sched sched' ctx params m cs :
  validSchedule (numTasks params) sched →
  validSchedule (numTasks params) sched' →
  (generateKeysInParallel fuel sched ctx params m cs).1
  = (generateKeysInParallel fuel sched' ctx params m cs).1
  ∧ forgetError <$> (generateKeysInParallel fuel sched ctx params m cs).2
    = forgetError <$> (generateKeysInParallel fuel sched' ctx params m cs).2
  ∧ ∀ k idx,
      let tasks :=
        (createTasks (numTasks params) idx (useAccountIndex params)).1 in
      (runTasks ctx m cs (numTasks params) tasks (sched k)).1
      = workerKeys m cs <$> tasks.
Proof.
  intros Hv Hv'. rewrite !generateKeysInParallel_loop. cbn [fst snd].
  destruct (searchLoop_schedule fuel sched sched' ctx params m cs 0 []
              (startIndex params) Hv Hv') as [Hst Hex].
  split_and!; [done| |].
  - by destruct Hex.
  - intros k idx. cbn zeta.
    apply runTasks_slots; [apply createTasks_length|apply Hv].
Qed.

(** C5: every allocator call ends [numTasks*fixedTaskSize] after its start;
    the ranges of successive calls follow one another and enumerate
    [startIndex, final) once each, and the tasks a search starts are such a
    sequence of batches, so no index (hence no pair derived from an index) is
    scanned twice. *)
Theorem allocator_partitions_index_space calls n start u :
  (createTasks n start u).2 = start + n * fixedTaskSize
  ∧ length (createTasks n start u).1 = n
  ∧ (batches calls n start u).2 = start + calls * (n * fixedTaskSize)
  ∧ chained start (batches calls n start u).1 (batches calls n start u).2
  ∧ concat (taskIndexes <$> (batches calls n start u).1)
    = seq start ((batches calls n start u).2 - start)
  ∧ NoDup (concat (taskIndexes <$> (batches calls n start u).1))
  ∧ ∀ fuel sched ctx params m cs,
      let started := (generateKeysInParallel fuel sched ctx params m cs).1 in
      (∃ calls', calls' ≤ fuel
         ∧ started = (batches calls' (numTasks params) (startIndex params)
                        (useAccountIndex params)).1)
      ∧ NoDup (concat (taskIndexes <$> started))
      ∧ ∀ pairOf : nat → nat * nat,
          (∀ i j, pairOf i = pairOf j → i = j) →
          NoDup (pairOf <$> concat (taskIndexes <$> started)).
Proof.
  assert (∀ c n' i u', NoDup (concat (taskIndexes <$> (batches c n' i u').1)))
    as Hnodup.
  { intros c n' i u'. rewrite batches_indexes. apply NoDup_seq. }
  split_and!.
  - apply createTasks_next.
  - apply createTasks_length.
  - apply batches_next.
  - apply batches_chained.
  - rewrite batches_indexes, batches_next. f_equal. lia.
  - apply Hnodup.
  - intros fuel sched ctx params m cs. cbn zeta.
    rewrite generateKeysInParallel_loop. cbn [fst].
    destruct (searchLoop_started fuel sched ctx params m cs 0 []
                (startIndex params)) as (calls' & Hle & ->).
    split_and!; [by exists calls'|apply Hnodup|].
    intros pairOf Hinj. apply NoDup_fmap_2; [|apply Hnodup].
    intros i j. apply Hinj.
Qed.

(** C6: constraint values inconsistent with [numShards] make [generateKeys]
    return a configuration error before the exporter is built, the mnemonic
    is read or any worker is started. *)
Theorem invalid_constraints_rejected_before_derivation
    fuel sched cliFlags readLine :
  (numShards cliFlags < 1
   ∨ (∃ s, actualShard cliFlags = Some s ∧ numShards cliFlags ≤ s)
   ∨ (∃ s, projectedShard cliFlags = Some s ∧ numShards cliFlags ≤ s)) →
  ∃ msg,
    newConstraints (numShards cliFlags) (actualShard cliFlags)
      (projectedShard cliFlags) = inl (ConfigurationError msg)
    ∧ generateKeys fuel sched cliFlags readLine
      = {| startedTasks := []; exportedKeys := None;
           completion := Some (Return (Some (ConfigurationError msg))) |}.
Proof.
  intros Hbad.
  assert (∃ msg, newConstraints (numShards cliFlags) (actualShard cliFlags)
                   (projectedShard cliFlags) = inl (ConfigurationError msg))
    as [msg Hnew].
  { unfold newConstraints.
    destruct (numShards cliFlags <? 1) eqn:H1; [by eexists|].
    apply Nat.ltb_ge in H1.
    destruct (from_option _ _ (actualShard cliFlags)) eqn:H2; [by eexists|].
    destruct (from_option _ _ (projectedShard cliFlags)) eqn:H3; [by eexists|].
    exfalso. destruct Hbad as [?|[(s & Hs & Hle)|(s & Hs & Hle)]]; [lia| |].
    - rewrite Hs in H2. simpl in H2. apply Nat.leb_gt in H2. lia.
    - rewrite Hs in H3. simpl in H3. apply Nat.leb_gt in H3. lia. }
  exists msg. split; [done|]. by apply generateKeys_rejected.
Qed.

(** C7, as the code has it: the context is never consulted, so the search
    does the same with a cancelled context as with any other, and the only
    errors it returns are those of its workers. *)
Theorem context_never_consulted fuel sched ctx ctx' params m cs :
  generateKeysInParallel fuel sched ctx params m cs
  = generateKeysInParallel fuel sched ctx' params m cs
  ∧ ∀ started keys err,
      generateKeysInParallel fuel sched ctx params m cs
      = (started, Some (keys, Some err)) →
      ∃ t, t ∈ started ∧ doGenerateKeys t m cs = inl err.
Proof.
  split.
  - unfold generateKeysInParallel. by rewrite (searchLoop_ctx _ _ ctx ctx').
  - intros started keys err. rewrite generateKeysInParallel_loop. intros Hrun.
    destruct (searchLoop _ _ _ _ _ _ _ _ _) as [st [[all|e]|]] eqn:Hloop;
      simplify_eq/=.
    by eapply searchLoop_Failed.
Qed.

(** C8: with zero keys requested the loop body is never entered: the search
    returns the empty result at once and starts no task. *)
Theorem zero_keys_returns_immediately fuel sched ctx params m cs :
  numKeys params = 0 →
  generateKeysInParallel fuel sched ctx params m cs = ([], Some ([], None)).
Proof.
  intros Hzero. unfold generateKeysInParallel.
  by rewrite searchLoop_exit by (rewrite Hzero; simpl; lia).
Qed.

Lemma generateKeys_no_panic fuel sched cliFlags readLine :
  completion (generateKeys fuel sched cliFlags readLine) ≠ Some Panic.
Proof.
  unfold generateKeys.
  destruct (newConstraints _ _ _) as [err|cs]; [done|].
  destruct (export_NewExporter _); [done|].
  destruct (askMnemonic readLine) as [err|m]; [done|].
  destruct (generateKeysInParallel _ _ _ _ _ _) as [st [[keys [err|]]|]] eqn:Hrun;
    [done| |done].
  apply generateKeysInParallel_success in Hrun as (all & _ & -> & Hlen).
  unfold sliceTo. rewrite inlineSortKeysByIndexes_length.
  by rewrite (proj2 (Nat.leb_le _ _) Hlen).
Qed.

(** C9: a successful [generateKeysInParallel] returns at least [numKeys]
    keys, so the truncation in [generateKeys] is within bounds and the action
    never panics. *)
Theorem truncation_within_bounds fuel sched ctx params m cs started keys :
  generateKeysInParallel fuel sched ctx params m cs
  = (started, Some (keys, None)) →
  numKeys params ≤ length keys
  ∧ sliceTo keys (numKeys params) = Some (take (numKeys params) keys)
  ∧ ∀ fuel' sched' readLine,
      completion (generateKeys fuel' sched' params readLine) ≠ Some Panic.
Proof.
  intros (all & _ & -> & Hlen)%generateKeysInParallel_success.
  assert (numKeys params ≤ length (inlineSortKeysByIndexes all)) as Hle
    by (by rewrite inlineSortKeysByIndexes_length).
  split_and!; [done| |].
  - unfold sliceTo. by rewrite (proj2 (Nat.leb_le _ _) Hle).
  - intros. apply generateKeys_no_panic.
Qed.

(** C10: with no tasks and at least one key requested, an iteration starts
    no worker, gathers no key and moves no index, so the loop is still
    running after any number of iterations. *)
Theorem zero_tasks_never_terminates fuel sched ctx params m cs :
  numTasks params = 0 → 1 ≤ numKeys params →
  (∀ k idx,
     createTasks (numTasks params) idx (useAccountIndex params) = ([], idx)
     ∧ runTasks ctx m cs (numTasks params) [] (sched k) = ([], None))
  ∧ (∀ k all idx, length all < numKeys params →
       searchLoop fuel sched ctx params m cs k all idx = ([], None))
  ∧ generateKeysInParallel fuel sched ctx params m cs = ([], None).
Proof.
  intros Hzero Hkeys.
  assert (∀ k, runTasks ctx m cs (numTasks params) [] (sched k) = ([], None))
    as Hrun.
  { intros k. unfold runTasks, errgroup_WithContext.
    rewrite foldl_runWorker_no_tasks, Hzero. done. }
  assert (∀ k all idx, length all < numKeys params →
            searchLoop fuel sched ctx params m cs k all idx = ([], None))
    as Hloop.
  { induction fuel as [|fuel' IH]; intros k all idx Hlt.
    - by apply searchLoop_fuel_0.
    - rewrite searchLoop_step by done. cbn zeta.
      replace (createTasks (numTasks params) idx (useAccountIndex params)).1
        with (@nil SearchTask) by (by rewrite Hzero).
      rewrite Hrun. cbn [concat]. rewrite app_nil_r.
      by rewrite IH. }
  split_and!.
  - intros k idx. split; [by rewrite Hzero|apply Hrun].
  - done.
  - unfold generateKeysInParallel. rewrite Hloop; [done|simpl; lia].
Qed.

(** *** What the search gathers *)

Lemma batches_S calls n i u :
  (batches (S calls) n i u).1
  = (createTasks n i u).1 ++ (batches calls n (i + n * fixedTaskSize) u).1.
Proof.
  simpl. pose proof (createTasks_next n i u) as Hnext.
  destruct (createTasks n i u) as [tasks newIdx]. simpl in *. subst newIdx.
  by destruct (batches calls n _ u).
Qed.

(** The accumulator at the end of the loop: the keys of the started tasks,
    in task order, after those it began with. *)
Lemma searchLoop_accumulates fuel sched ctx params m cs k all idx started all' :
  validSchedule (numTasks params) sched →
  searchLoop fuel sched ctx params m cs k all idx = (started, Some (Done all')) →
  all' = all ++ concat (workerKeys m cs <$> started).
Proof.
  intros Hv. revert k all idx started.
  induction fuel as [|fuel IH]; intros k all idx started Hrun;
    destruct (decide (length all < numKeys params)) as [Hlt|Hge].
  - rewrite searchLoop_fuel_0 in Hrun by done. congruence.
  - rewrite searchLoop_exit in Hrun by lia. injection Hrun as <- <-.
    by rewrite app_nil_r.
  - rewrite searchLoop_valid_step in Hrun by done. cbn zeta in Hrun.
    destruct (firstError _ _ _ _); [congruence|].
    destruct (searchLoop fuel _ _ _ _ _ _ _ _) as [st ex] eqn:Hrec.
    injection Hrun as <- ->. apply IH in Hrec as ->.
    by rewrite fmap_app, concat_app, app_assoc.
  - rewrite searchLoop_exit in Hrun by lia. injection Hrun as <- <-.
    by rewrite app_nil_r.
Qed.

(** The loop runs the least number of batches that gathers [numKeys] keys. *)
Lemma searchLoop_least fuel sched ctx params m cs k all idx started all' :
  validSchedule (numTasks params) sched →
  searchLoop fuel sched ctx params m cs k all idx = (started, Some (Done all')) →
  ∃ calls,
    started = (batches calls (numTasks params) idx (useAccountIndex params)).1
    ∧ ∀ c, c < calls →
        length (all ++ concat (workerKeys m cs <$>
                  (batches c (numTasks params) idx (useAccountIndex params)).1))
        < numKeys params.
Proof.
  intros Hv. revert k all idx started.
  induction fuel as [|fuel IH]; intros k all idx started Hrun;
    destruct (decide (length all < numKeys params)) as [Hlt|Hge].
  - rewrite searchLoop_fuel_0 in Hrun by done. congruence.
  - rewrite searchLoop_exit in Hrun by lia. injection Hrun as <- <-.
    exists 0. split; [done|]. intros c Hc. lia.
  - rewrite searchLoop_valid_step in Hrun by done. cbn zeta in Hrun.
    destruct (firstError _ _ _ _); [congruence|].
    destruct (searchLoop fuel _ _ _ _ _ _ _ _) as [st ex] eqn:Hrec.
    injection Hrun as <- ->. apply IH in Hrec as (calls & -> & Hless).
    exists (S calls). split; [by rewrite batches_S|].
    intros [|c] Hc.
    + simpl. by rewrite app_nil_r.
    + rewrite batches_S, fmap_app, concat_app, app_assoc. apply Hless. lia.
  - rewrite searchLoop_exit in Hrun by lia. injection Hrun as <- <-.
    exists 0. split; [done|]. intros c Hc. lia.
Qed.

(** Whatever the workers guarantee of their keys holds of every slot. *)
Lemma runTasks_Forall (P : GeneratedKey → Prop) ctx m cs n tasks order :
  (∀ t keys, doGenerateKeys t m cs = inr keys → Forall P keys) →
  Forall (Forall P) (runTasks ctx m cs n tasks order).1.
Proof.
  intros HP. unfold runTasks, errgroup_WithContext.
  assert (∀ st, Forall (Forall P) st.1 →
            Forall (Forall P) (foldl (runWorker m cs tasks) st order).1) as Hfold.
  { induction order as [|i order IH]; intros st Hst; simpl; [done|].
    apply IH. unfold runWorker. destruct (tasks !! i) as [t|]; [|done].
    destruct (doGenerateKeys t m cs) as [e|keys] eqn:Hw; simpl; [done|].
    apply Forall_insert; [done|]. by eapply HP. }
  specialize (Hfold (replicate n [], {| groupErr := None |})).
  destruct (foldl _ _ _) as [byTask errs']. simpl in *. apply Hfold.
  apply Forall_replicate. constructor.
Qed.

Lemma searchLoop_Forall (P : GeneratedKey → Prop)
    fuel sched ctx params m cs k all idx started all' :
  (∀ t keys, doGenerateKeys t m cs = inr keys → Forall P keys) →
  Forall P all →
  searchLoop fuel sched ctx params m cs k all idx = (started, Some (Done all')) →
  Forall P all'.
Proof.
  intros HP. revert k all idx started.
  induction fuel as [|fuel IH]; intros k all idx started Hall Hrun;
    destruct (decide (length all < numKeys params)) as [Hlt|Hge].
  - rewrite searchLoop_fuel_0 in Hrun by done. congruence.
  - rewrite searchLoop_exit in Hrun by lia. by injection Hrun as <- <-.
  - rewrite searchLoop_step in Hrun by done. cbn zeta in Hrun.
    pose proof (runTasks_Forall P ctx m cs (numTasks params)
                  (createTasks (numTasks params) idx (useAccountIndex params)).1
                  (sched k) HP) as Hslots.
    destruct (runTasks _ _ _ _ _ _) as [byTask [err|]]; [congruence|].
    destruct (searchLoop fuel _ _ _ _ _ _ _ _) as [st ex] eqn:Hrec.
    injection Hrun as <- ->. eapply IH; [|done].
    apply Forall_app. split; [done|]. by apply Forall_concat.
  - rewrite searchLoop_exit in Hrun by lia. by injection Hrun as <- <-.
Qed.

(** When no worker fails and every batch finds a key, the loop is left after
    at most [numKeys] iterations. *)
Lemma searchLoop_progress fuel sched ctx params m cs :
  validSchedule (numTasks params) sched →
  (∀ idx t, t ∈ (createTasks (numTasks params) idx (useAccountIndex params)).1 →
     doGenerateKeys t m cs = inr (workerKeys m cs t)) →
  (∀ idx, concat (workerKeys m cs <$>
            (createTasks (numTasks params) idx (useAccountIndex params)).1) ≠ []) →
  ∀ k all idx,
    numKeys params - length all ≤ fuel →
    ∃ started all',
      searchLoop fuel sched ctx params m cs k all idx
      = (started, Some (Done all')).
Proof.
  intros Hv Hok Hfind.
  induction fuel as [|fuel IH]; intros k all idx Hfuel;
    destruct (decide (length all < numKeys params)) as [Hlt|Hge].
  - lia.
  - rewrite searchLoop_exit by lia. eauto.
  - rewrite searchLoop_valid_step by done. cbn zeta.
    set (tasks := (createTasks _ _ _).1).
    assert (firstError m cs tasks (sched k) = None) as ->.
    { apply firstError_None. intros i _. unfold workerError.
      destruct (tasks !! i) as [t|] eqn:Ht; [|done].
      rewrite (Hok idx t); [done|]. apply list_elem_of_lookup. eauto. }
    destruct (IH (S k) (all ++ concat (workerKeys m cs <$> tasks))
                (idx + numTasks params * fixedTaskSize)) as (st & all' & ->).
    + specialize (Hfind idx). fold tasks in Hfind.
      destruct (concat (workerKeys m cs <$> tasks)); [done|].
      rewrite length_app. simpl. lia.
    + eauto.
  - rewrite searchLoop_exit by lia. eauto.
Qed.

Lemma generateKeysInParallel_slice
    fuel sched ctx params m cs started keys :
  generateKeysInParallel fuel sched ctx params m cs
  = (started, Some (keys, None)) →
  sliceTo keys (numKeys params) = Some (take (numKeys params) keys)
  ∧ length (take (numKeys params) keys) = numKeys params.
Proof.
  intros (all & _ & -> & Hlen)%generateKeysInParallel_success.
  unfold sliceTo. rewrite length_take, inlineSortKeysByIndexes_length.
  rewrite (proj2 (Nat.leb_le _ _) Hlen). split; [done|lia].
Qed.

Lemma generateKeysInParallel_Forall (P : GeneratedKey → Prop)
    fuel sched ctx params m cs started keys :
  (∀ t found, doGenerateKeys t m cs = inr found → Forall P found) →
  generateKeysInParallel fuel sched ctx params m cs
  = (started, Some (keys, None)) →
  Forall P keys.
Proof.
  intros HP (all & Hloop & -> & _)%generateKeysInParallel_success.
  rewrite inlineSortKeysByIndexes_perm.
  eapply (searchLoop_Forall P); [done| |done]. constructor.
Qed.

(** X1: a successful search returns exactly the keys its workers found: the
    accumulator is the per-task results of the started tasks in task order,
    and the returned slice is a rearrangement of it. *)
Theorem search_returns_exactly_the_found_keys
    fuel sched ctx params m cs started keys :
  validSchedule (numTasks params) sched →
  generateKeysInParallel fuel sched ctx params m cs
  = (started, Some (keys, None)) →
  searchLoop fuel sched ctx params m cs 0 [] (startIndex params)
  = (started, Some (Done (concat (workerKeys m cs <$> started))))
  ∧ keys ≡ₚ concat (workerKeys m cs <$> started).
Proof.
  intros Hv (all & Hloop & -> & _)%generateKeysInParallel_success.
  pose proof (searchLoop_accumulates _ _ _ _ _ _ _ _ _ _ _ Hv Hloop) as Hall.
  simpl in Hall. subst all. split; [done|].
  apply inlineSortKeysByIndexes_perm.
Qed.

(** X2: when no worker fails and every batch finds at least one key, the
    search returns successfully within [numKeys] iterations. *)
Theorem search_terminates_when_batches_progress fuel sched ctx params m cs :
  validSchedule (numTasks params) sched →
  (∀ idx t, t ∈ (createTasks (numTasks params) idx (useAccountIndex params)).1 →
     doGenerateKeys t m cs = inr (workerKeys m cs t)) →
  (∀ idx, concat (workerKeys m cs <$>
            (createTasks (numTasks params) idx (useAccountIndex params)).1) ≠ []) →
  numKeys params ≤ fuel →
  ∃ started keys,
    generateKeysInParallel fuel sched ctx params m cs
    = (started, Some (keys, None))
    ∧ numKeys params ≤ length keys.
Proof.
  intros Hv Hok Hfind Hfuel.
  destruct (searchLoop_progress fuel sched ctx params m cs Hv Hok Hfind 0 []
              (startIndex params)) as (started & all & Hloop); [simpl; lia|].
  exists started, (inlineSortKeysByIndexes all).
  unfold generateKeysInParallel. rewrite Hloop. split; [done|].
  rewrite inlineSortKeysByIndexes_length. by eapply searchLoop_Done.
Qed.

(** X3: a successful search runs the least number of batches that yields
    [numKeys] keys: fewer batches found fewer than [numKeys] keys. *)
Theorem search_runs_least_number_of_batches
    fuel sched ctx params m cs started keys :
  validSchedule (numTasks params) sched →
  generateKeysInParallel fuel sched ctx params m cs
  = (started, Some (keys, None)) →
  ∃ calls,
    started = (batches calls (numTasks params) (startIndex params)
                 (useAccountIndex params)).1
    ∧ numKeys params ≤ length (concat (workerKeys m cs <$> started))
    ∧ ∀ c, c < calls →
        length (concat (workerKeys m cs <$>
                  (batches c (numTasks params) (startIndex params)
                     (useAccountIndex params)).1))
        < numKeys params.
Proof.
  intros Hv (all & Hloop & -> & Hlen)%generateKeysInParallel_success.
  pose proof (searchLoop_accumulates _ _ _ _ _ _ _ _ _ _ _ Hv Hloop) as Hall.
  simpl in Hall. subst all.
  destruct (searchLoop_least _ _ _ _ _ _ _ _ _ _ _ Hv Hloop)
    as (calls & Hst & Hless).
  exists calls. split_and!; [done|done|]. intros c Hc. by apply Hless.
Qed.

(** X4: whatever every worker guarantees of the keys it returns holds of
    every key the search returns, under any completion order. *)
Theorem returned_keys_keep_worker_guarantee (P : GeneratedKey → Prop)
    fuel sched ctx params m cs started keys :
  (∀ t found, doGenerateKeys t m cs = inr found → Forall P found) →
  generateKeysInParallel fuel sched ctx params m cs
  = (started, Some (keys, None)) →
  Forall P keys.
Proof.
  intros HP (all & Hloop & -> & _)%generateKeysInParallel_success.
  rewrite inlineSortKeysByIndexes_perm.
  eapply (searchLoop_Forall P); [done| |done]. constructor.
Qed.

(** X5: when [generateKeys] reaches the exporter, it hands it exactly
    [numKeys] keys, all of them found by workers, and returns what the exporter
    returns. *)
Theorem generateKeys_exports_numKeys_keys (P : GeneratedKey → Prop)
    fuel sched cliFlags readLine exported :
  exportedKeys (generateKeys fuel sched cliFlags readLine) = Some exported →
  length exported = numKeys cliFlags
  ∧ completion (generateKeys fuel sched cliFlags readLine)
    = Some (Return (ExportKeys exported))
  ∧ ∃ mnemonic cs,
      readLine = inr mnemonic
      ∧ newConstraints (numShards cliFlags) (actualShard cliFlags)
          (projectedShard cliFlags) = inr cs
      ∧ ((∀ t found, doGenerateKeys t mnemonic cs = inr found → Forall P found) →
         Forall P exported).
Proof.
  unfold generateKeys.
  destruct (newConstraints _ _ _) as [err|cs]; [done|].
  destruct (export_NewExporter _); [done|].
  destruct readLine as [err|mnemonic]; [done|]. cbn [askMnemonic].
  destruct (generateKeysInParallel _ _ _ _ _ _) as [st [[keys [err|]]|]] eqn:Hrun;
    [done| |done].
  destruct (generateKeysInParallel_slice _ _ _ _ _ _ _ _ Hrun)
    as (Hslice & Hlen).
  rewrite Hslice. cbn [exportedKeys completion]. intros [= <-].
  split_and!; [done|done|]. exists mnemonic, cs. split_and!; [done|done|].
  intros HP. apply Forall_take.
  by eapply (generateKeysInParallel_Forall P).
Qed.

End Search.

(** ** The model on concrete inputs *)

Example sort_three :
  inlineSortKeysByIndexes [mkKey 3 0; mkKey 1 0; mkKey 2 0]
  = [mkKey 1 0; mkKey 2 0; mkKey 3 0].
Proof. reflexivity. Qed.

(** Scenario A of the specification: two shards, shard 0 wanted, three keys. *)
Example scenario_A :
  generateKeys 2 (demoWorker 100) demoNewExporter demoExportKeys 5 inOrder
    (demoFlags 3 2 true) (inr "seed"%string)
  = {| startedTasks := [demoTask 0; demoTask 2; demoTask 4; demoTask 6];
       exportedKeys := Some [mkKey 0 0; mkKey 2 0; mkKey 4 0];
       completion := Some (Return None) |}.
Proof. reflexivity. Qed.

(** Scenario C of the specification: no key requested. *)
Example scenario_C :
  generateKeys 2 (demoWorker 100) demoNewExporter demoExportKeys 0 inOrder
    (demoFlags 0 2 true) (inr "seed"%string)
  = {| startedTasks := []; exportedKeys := Some [];
       completion := Some (Return None) |}.
Proof. reflexivity. Qed.

(** Which error a failing iteration returns does depend on the completion
    order: it is the one of the worker that failed first. *)
Example error_follows_completion_order :
  (generateKeysInParallel 2 (demoWorker 5) 5 inOrder context_Background
     (demoFlags 3 2 true) "seed" (demoConstraints (Some 0))).2
  = Some ([], Some (DerivationError 5))
  ∧ (generateKeysInParallel 2 (demoWorker 5) 5 reversed context_Background
       (demoFlags 3 2 true) "seed" (demoConstraints (Some 0))).2
    = Some ([], Some (DerivationError 6)).
Proof. split; reflexivity. Qed.

Lemma inOrder_valid : validSchedule 2 inOrder.
Proof. intros k. reflexivity. Defined.

Lemma reversed_valid : validSchedule 2 reversed.
Proof. intros k. apply perm_swap. Defined.

(** ** The comparator *)

Lemma less_spec a b :
  less a b = true
  ↔ AccountIndex a < AccountIndex b ∨ AddressIndex a < AddressIndex b.
Proof.
  unfold less.
  destruct (AccountIndex a <? AccountIndex b) eqn:H1;
    destruct (AddressIndex a <? AddressIndex b) eqn:H2;
    rewrite ?Nat.ltb_lt, ?Nat.ltb_ge in *; split; try done; try lia; auto.
Qed.

(** Where one of the two indexes is the same in both keys, the comparator is
    the lexicographic one. *)
Lemma less_lex_same_address a b :
  AddressIndex a = AddressIndex b → less a b = true ↔ lexLt a b.
Proof. intros Heq. rewrite less_spec. unfold lexLt. lia. Qed.

Lemma less_lex_same_account a b :
  AccountIndex a = AccountIndex b → less a b = true ↔ lexLt a b.
Proof. intros Heq. rewrite less_spec. unfold lexLt. lia. Qed.

(** C1: the comparator answers "less" both ways on (1,0) and (0,1); the
    sort puts (1,0) before (0,1), and a search whose workers vary both indexes
    returns keys that are not in lexicographic order. *)
Theorem comparator_breaks_lexicographic_order :
  less (mkKey 1 0) (mkKey 0 1) = true
  ∧ less (mkKey 0 1) (mkKey 1 0) = true
  ∧ lexLt (mkKey 0 1) (mkKey 1 0)
  ∧ inlineSortKeysByIndexes [mkKey 0 1; mkKey 1 0] = [mkKey 1 0; mkKey 0 1]
  ∧ ¬ Sorted lexLe [mkKey 1 0; mkKey 0 1]
  ∧ (generateKeysInParallel 2 (demoWorker 100) 5 inOrder context_Background
       (demoFlags 4 2 false) "seed" (demoConstraints None)).2
    = Some ([mkKey 0 0; mkKey 1 0; mkKey 0 1; mkKey 1 1], None)
  ∧ ¬ Sorted lexLe [mkKey 0 0; mkKey 1 0; mkKey 0 1; mkKey 1 1].
Proof.
  assert (¬ lexLe (mkKey 1 0) (mkKey 0 1)) as Hnot.
  { unfold lexLe. simpl. lia. }
  split_and!; try reflexivity.
  - unfold lexLt. simpl. lia.
  - intros Hs. inversion Hs as [|? ? _ Hhd]; subst.
    inversion Hhd; subst. done.
  - intros Hs. inversion Hs as [|? ? Hs' _]; subst.
    inversion Hs' as [|? ? _ Hhd]; subst. inversion Hhd; subst. done.
Qed.

(** C2: with two keys wanted and workers that vary both indexes, the search
    gathers (0,0), (0,1), (1,0), (1,1) and [generateKeys] hands (0,0), (1,0) to
    the exporter: two keys, cut from the slice after the sort, but not the
    first two in lexicographic order, which are (0,0), (0,1). *)
Theorem search_cut_is_not_first_numKeys_of_sorted :
  searchLoop 2 (demoWorker 100) 5 inOrder context_Background bothIndexFlags
    "seed" (demoConstraints None) 0 [] 0
  = ([ {| rangeStart := 0; rangeEnd := 2; useAccountIndexOnly := false |};
       {| rangeStart := 2; rangeEnd := 4; useAccountIndexOnly := false |} ],
     Some (Done [mkKey 0 0; mkKey 0 1; mkKey 1 0; mkKey 1 1]))
  ∧ inlineSortKeysByIndexes [mkKey 0 0; mkKey 0 1; mkKey 1 0; mkKey 1 1]
    = [mkKey 0 0; mkKey 1 0; mkKey 0 1; mkKey 1 1]
  ∧ exportedKeys
      (generateKeys 2 (demoWorker 100) demoNewExporter demoExportKeys 5 inOrder
         bothIndexFlags (inr "seed"%string))
    = Some [mkKey 0 0; mkKey 1 0]
  ∧ completion
      (generateKeys 2 (demoWorker 100) demoNewExporter demoExportKeys 5 inOrder
         bothIndexFlags (inr "seed"%string))
    = Some (Return None)
  ∧ sortedByIndexes [mkKey 0 0; mkKey 0 1; mkKey 1 0; mkKey 1 1]
    = [mkKey 0 0; mkKey 0 1; mkKey 1 0; mkKey 1 1]
  ∧ StronglySorted lexLe [mkKey 0 0; mkKey 0 1; mkKey 1 0; mkKey 1 1]
  ∧ take (numKeys bothIndexFlags)
      (sortedByIndexes [mkKey 0 0; mkKey 0 1; mkKey 1 0; mkKey 1 1])
    = [mkKey 0 0; mkKey 0 1]
  ∧ [mkKey 0 0; mkKey 1 0] ≠ [mkKey 0 0; mkKey 0 1]
  ∧ lexLt (mkKey 0 1) (mkKey 1 0)
  ∧ mkKey 0 1 ∉ [mkKey 0 0; mkKey 1 0].
Proof.
  split_and!; try reflexivity.
  - repeat constructor; unfold lexLe; simpl; lia.
  - discriminate.
  - unfold lexLt. simpl. lia.
  - intros Hin. repeat (apply elem_of_cons in Hin as [Hin|Hin]; [discriminate|]).
    by apply elem_of_nil in Hin.
Qed.

(** C7, the claim as stated fails: the context is cancelled when the second
    iteration starts, and the search still runs that iteration and returns
    every key it found, with no error. *)
Lemma cancelled_context_search_succeeds :
  cancelledMidSearch 0 = false
  ∧ cancelledMidSearch 1 = true
  ∧ generateKeysInParallel 2 (demoWorker 100) 5 inOrder cancelledMidSearch
      (demoFlags 3 2 true) "seed" (demoConstraints (Some 0))
    = ([demoTask 0; demoTask 2; demoTask 4; demoTask 6],
       Some ([mkKey 0 0; mkKey 2 0; mkKey 4 0; mkKey 6 0], None))
  ∧ (generateKeysInParallel 2 (demoWorker 100) 5 inOrder cancelledMidSearch
       (demoFlags 3 2 true) "seed" (demoConstraints (Some 0))).2
    ≠ Some ([], Some CancellationError).
Proof. split_and!; try reflexivity. discriminate. Qed.

(** ** The theorems at concrete inputs *)

Lemma worker_failure_aborts_search_witness :
  ∃ e earlier idx k,
    let batch := (createTasks 2 2 idx true).1 in
    Some (@nil GeneratedKey, Some (DerivationError 5)) = Some ([], Some e)
    ∧ [demoTask 0; demoTask 2; demoTask 4; demoTask 6] = earlier ++ batch
    ∧ (∀ t', t' ∈ earlier →
         demoWorker 5 t' "seed" (demoConstraints (Some 0))
         = inr (workerKeys (demoWorker 5) "seed" (demoConstraints (Some 0)) t'))
    ∧ firstError (demoWorker 5) "seed" (demoConstraints (Some 0)) batch
        (inOrder k) = Some e
    ∧ ∃ t', t' ∈ batch
        ∧ demoWorker 5 t' "seed" (demoConstraints (Some 0)) = inl e.
Proof.
  apply (worker_failure_aborts_search 2 (demoWorker 5) 5 inOrder
           context_Background (demoFlags 3 2 true) "seed"%string
           (demoConstraints (Some 0)) _ _ (demoTask 6) (DerivationError 6)).
  - exact inOrder_valid.
  - reflexivity.
  - apply list_elem_of_lookup. exists 3. reflexivity.
  - reflexivity.
Defined.

Lemma search_independent_of_schedule_witness :
  (generateKeysInParallel 2 (demoWorker 100) 5 inOrder context_Background
     (demoFlags 3 2 true) "seed" (demoConstraints (Some 0))).1
  = (generateKeysInParallel 2 (demoWorker 100) 5 reversed context_Background
       (demoFlags 3 2 true) "seed" (demoConstraints (Some 0))).1
  ∧ forgetError <$>
      (generateKeysInParallel 2 (demoWorker 100) 5 inOrder context_Background
         (demoFlags 3 2 true) "seed" (demoConstraints (Some 0))).2
    = forgetError <$>
        (generateKeysInParallel 2 (demoWorker 100) 5 reversed context_Background
           (demoFlags 3 2 true) "seed" (demoConstraints (Some 0))).2
  ∧ ∀ k idx,
      let tasks := (createTasks 2 2 idx true).1 in
      (runTasks (demoWorker 100) context_Background "seed"
         (demoConstraints (Some 0)) 2 tasks (inOrder k)).1
      = workerKeys (demoWorker 100) "seed" (demoConstraints (Some 0)) <$> tasks.
Proof.
  apply (search_independent_of_schedule 2 (demoWorker 100) 5 inOrder reversed
           context_Background (demoFlags 3 2 true) "seed"%string
           (demoConstraints (Some 0))).
  - exact inOrder_valid.
  - exact reversed_valid.
Defined.

Lemma allocator_partitions_index_space_witness :
  (batches 2 3 2 10 true).2 = 22
  ∧ concat (taskIndexes <$> (batches 2 3 2 10 true).1) = seq 10 12
  ∧ NoDup (concat (taskIndexes <$> (batches 2 3 2 10 true).1)).
Proof.
  pose proof (allocator_partitions_index_space 2 (demoWorker 100) 3 2 10 true)
    as (_ & _ & Hnext & _ & Hidx & Hnodup & _).
  split_and!; [exact Hnext|exact Hidx|exact Hnodup].
Defined.

(** Scenario B of the specification: [actualShard = 5] with two shards. *)
Lemma invalid_constraints_rejected_before_derivation_witness :
  ∃ msg,
    newConstraints 2 (Some 5) None = inl (ConfigurationError msg)
    ∧ generateKeys 2 (demoWorker 100) demoNewExporter demoExportKeys 5 inOrder
        {| numShards := 2; actualShard := Some 5; projectedShard := None;
           startIndex := 0; numKeys := 3; numTasks := 2;
           useAccountIndex := true; exportFormat := "plain-text" |}
        (inr "seed"%string)
      = {| startedTasks := []; exportedKeys := None;
           completion := Some (Return (Some (ConfigurationError msg))) |}.
Proof.
  apply (invalid_constraints_rejected_before_derivation 2 (demoWorker 100)
           demoNewExporter demoExportKeys 5 inOrder
           {| numShards := 2; actualShard := Some 5; projectedShard := None;
              startIndex := 0; numKeys := 3; numTasks := 2;
              useAccountIndex := true; exportFormat := "plain-text" |}
           (inr "seed"%string)).
  right. left. exists 5. split; [reflexivity|simpl; lia].
Defined.

Lemma zero_keys_returns_immediately_witness :
  generateKeysInParallel 2 (demoWorker 100) 0 inOrder context_Background
    (demoFlags 0 2 true) "seed" (demoConstraints (Some 0))
  = ([], Some ([], None)).
Proof.
  apply (zero_keys_returns_immediately 2 (demoWorker 100) 0 inOrder
           context_Background (demoFlags 0 2 true) "seed"%string
           (demoConstraints (Some 0))).
  reflexivity.
Defined.

Lemma truncation_within_bounds_witness :
  3 ≤ length [mkKey 0 0; mkKey 2 0; mkKey 4 0; mkKey 6 0]
  ∧ sliceTo [mkKey 0 0; mkKey 2 0; mkKey 4 0; mkKey 6 0] 3
    = Some (take 3 [mkKey 0 0; mkKey 2 0; mkKey 4 0; mkKey 6 0])
  ∧ ∀ fuel' sched' readLine,
      completion (generateKeys 2 (demoWorker 100) demoNewExporter demoExportKeys
                    fuel' sched' (demoFlags 3 2 true) readLine)
      ≠ Some Panic.
Proof.
  apply (truncation_within_bounds 2 (demoWorker 100) demoNewExporter
           demoExportKeys 5 inOrder context_Background (demoFlags 3 2 true)
           "seed"%string (demoConstraints (Some 0))
           [demoTask 0; demoTask 2; demoTask 4; demoTask 6]).
  reflexivity.
Defined.

Lemma zero_tasks_never_terminates_witness :
  generateKeysInParallel 2 (demoWorker 100) 1000 inOrder context_Background
    (demoFlags 3 0 true) "seed" (demoConstraints (Some 0))
  = ([], None).
Proof.
  apply (zero_tasks_never_terminates 2 (demoWorker 100) 1000 inOrder
           context_Background (demoFlags 3 0 true) "seed"%string
           (demoConstraints (Some 0))).
  - reflexivity.
  - simpl. lia.
Defined.

(** ** The sort, where the comparator is an order *)

Lemma swap_at {A : Type} (l1 : list A) x y l2 :
  swap (l1 ++ y :: x :: l2) (S (length l1)) (length l1) = l1 ++ x :: y :: l2.
Proof.
  assert (∀ l, (l ++ y :: x :: l2) !! S (length l) = Some x) as Hx.
  { intros l. by induction l. }
  assert (∀ l, (l ++ y :: x :: l2) !! length l = Some y) as Hy.
  { intros l. by apply list_lookup_middle. }
  unfold swap. rewrite Hx, Hy. clear Hx Hy.
  induction l1 as [|a l1 IH]; [done|]. simpl. by rewrite IH.
Qed.

(** A pass over a position whose element is not less than its left neighbour
    changes nothing. *)
Lemma insertionInner_in_place {A : Type} (lt : A → A → bool) data i :
  (∀ j x y, data !! S j = Some x → data !! j = Some y → lt x y = false) →
  insertionInner lt data i = data.
Proof.
  intros Hord. destruct i as [|j]; simpl; [done|].
  destruct (data !! S j) as [x|] eqn:Hx; [|done].
  destruct (data !! j) as [y|] eqn:Hy; [|done].
  by rewrite (Hord j x y Hx Hy).
Qed.

Section InsertionSort.

Context {A : Type} (lt : A → A → bool) (le : relation A) (Q : A → Prop).
Context `{!Transitive le}.
Hypothesis lt_le : ∀ x y, Q x → Q y → lt x y = true → le x y.
Hypothesis nlt_le : ∀ x y, Q x → Q y → lt x y = false → le y x.

(** One pass: the element after a sorted prefix is moved left to its place. *)
Lemma insertionInner_sorted pre x rest :
  StronglySorted le pre → Forall Q pre → Q x →
  ∃ pre',
    insertionInner lt (pre ++ x :: rest) (length pre) = pre' ++ rest
    ∧ StronglySorted le pre' ∧ pre' ≡ₚ pre ++ [x].
Proof.
  revert x rest. induction pre as [|y pre0 IH] using rev_ind;
    intros x rest Hsorted HQ Hx.
  - exists [x]. split_and!; [done| |done]. repeat constructor.
  - apply StronglySorted_app in Hsorted as (Hle & Hpre0 & _).
    apply Forall_app in HQ as [HQ0 [Hy _]%Forall_cons].
    rewrite length_app, Nat.add_1_r, <- app_assoc. cbn [insertionInner app].
    assert ((pre0 ++ y :: x :: rest) !! S (length pre0) = Some x) as ->.
    { change (y :: x :: rest) with ([y] ++ x :: rest). rewrite app_assoc.
      apply list_lookup_middle. rewrite length_app. simpl. lia. }
    rewrite (list_lookup_middle pre0 (x :: rest) y) by done.
    destruct (lt x y) eqn:Hlt.
    + rewrite swap_at.
      destruct (IH x (y :: rest) Hpre0 HQ0 Hx) as (pre' & -> & Hs & Hperm).
      exists (pre' ++ [y]). split_and!.
      * by rewrite <- app_assoc.
      * apply StronglySorted_app_2; [|done|repeat constructor].
        intros a b Ha ->%list_elem_of_singleton.
        rewrite Hperm in Ha. apply elem_of_app in Ha as [Ha|Ha].
        -- apply Hle; [done|apply list_elem_of_here].
        -- apply list_elem_of_singleton in Ha as ->. by apply lt_le.
      * rewrite Hperm, <- !app_assoc. apply Permutation_app_head, perm_swap.
    + exists (pre0 ++ [y; x]). split_and!.
      * by rewrite <- app_assoc.
      * apply StronglySorted_app_2; [|done|].
        -- intros a b Ha [->|Hb]%elem_of_cons.
           ++ apply Hle; [done|apply list_elem_of_here].
           ++ apply list_elem_of_singleton in Hb as ->.
              transitivity y; [|by apply nlt_le].
              apply Hle; [done|apply list_elem_of_here].
        -- repeat constructor. by apply nlt_le.
      * by rewrite <- app_assoc.
Qed.

Lemma insertionSort_passes_sorted rest pre :
  StronglySorted le pre → Forall Q (pre ++ rest) →
  StronglySorted le
    (foldl (insertionInner lt) (pre ++ rest) (seq (length pre) (length rest))).
Proof.
  revert pre. induction rest as [|x rest IH]; intros pre Hsorted HQ; simpl.
  - by rewrite app_nil_r.
  - apply Forall_app in HQ as [HQpre [Hx HQrest]%Forall_cons].
    destruct (insertionInner_sorted pre x rest Hsorted HQpre Hx)
      as (pre' & -> & Hs & Hperm).
    replace (S (length pre)) with (length pre')
      by (rewrite Hperm, length_app; simpl; lia).
    apply IH; [done|]. apply Forall_app. split; [|done].
    rewrite Hperm. apply Forall_app. split; [done|by constructor].
Qed.

Lemma insertionSort_func_sorted data :
  Forall Q data → StronglySorted le (insertionSort_func lt data).
Proof.
  intros HQ. unfold insertionSort_func. destruct data as [|x rest].
  - constructor.
  - simpl. rewrite Nat.sub_0_r.
    apply (insertionSort_passes_sorted rest [x]); [repeat constructor|done].
Qed.

End InsertionSort.

Lemma lexLe_transitive : Transitive lexLe.
Proof. intros a b c. unfold lexLe. lia. Qed.

Lemma inlineSortKeysByIndexes_sorted keys c :
  Forall (λ k, AddressIndex k = c) keys ∨ Forall (λ k, AccountIndex k = c) keys →
  StronglySorted lexLe (inlineSortKeysByIndexes keys).
Proof.
  pose proof lexLe_transitive.
  intros [Hfix|Hfix]; unfold inlineSortKeysByIndexes, sort_Slice.
  - apply (insertionSort_func_sorted less lexLe (λ k, AddressIndex k = c));
      [| |done]; intros x y Hx Hy; unfold less, lexLe; rewrite Hx, Hy;
      rewrite Nat.ltb_irrefl;
      destruct (AccountIndex x <? AccountIndex y) eqn:Hlt; try done;
      rewrite ?Nat.ltb_lt, ?Nat.ltb_ge in *; intros _; lia.
  - apply (insertionSort_func_sorted less lexLe (λ k, AccountIndex k = c));
      [| |done]; intros x y Hx Hy; unfold less, lexLe; rewrite Hx, Hy;
      rewrite Nat.ltb_irrefl;
      destruct (AddressIndex x <? AddressIndex y) eqn:Hlt; try done;
      rewrite ?Nat.ltb_lt, ?Nat.ltb_ge in *; intros _; lia.
Qed.

(** X6: the sort only rearranges its input: no key is lost, added or
    duplicated, whatever the comparator answers. *)
Theorem sort_only_rearranges keys :
  inlineSortKeysByIndexes keys ≡ₚ keys
  ∧ length (inlineSortKeysByIndexes keys) = length keys
  ∧ ∀ k, k ∈ inlineSortKeysByIndexes keys ↔ k ∈ keys.
Proof.
  pose proof (inlineSortKeysByIndexes_perm keys) as Hperm.
  split_and!; [done|by apply Permutation_length|].
  intros k. by rewrite Hperm.
Qed.

(** X7: a slice in which no key compares less than its left neighbour is
    returned unchanged. *)
Theorem sort_leaves_ordered_input_unchanged keys :
  (∀ j x y, keys !! S j = Some x → keys !! j = Some y → less x y = false) →
  inlineSortKeysByIndexes keys = keys.
Proof.
  intros Hord. unfold inlineSortKeysByIndexes, sort_Slice, insertionSort_func.
  generalize (seq 1 (length keys - 1)). intros passes.
  induction passes as [|i passes IH]; simpl; [done|].
  by rewrite insertionInner_in_place.
Qed.

(** X8: on keys that all share their address index, or all share their account
    index, the sort returns them in lexicographic order. *)
Theorem sort_is_lexicographic_when_one_index_is_fixed keys c :
  Forall (λ k, AddressIndex k = c) keys ∨ Forall (λ k, AccountIndex k = c) keys →
  StronglySorted lexLe (inlineSortKeysByIndexes keys).
Proof.
  pose proof lexLe_transitive.
  intros [Hfix|Hfix]; unfold inlineSortKeysByIndexes, sort_Slice.
  - apply (insertionSort_func_sorted less lexLe (λ k, AddressIndex k = c));
      [| |done]; intros x y Hx Hy; unfold less, lexLe; rewrite Hx, Hy;
      rewrite Nat.ltb_irrefl;
      destruct (AccountIndex x <? AccountIndex y) eqn:Hlt; try done;
      rewrite ?Nat.ltb_lt, ?Nat.ltb_ge in *; intros _; lia.
  - apply (insertionSort_func_sorted less lexLe (λ k, AccountIndex k = c));
      [| |done]; intros x y Hx Hy; unfold less, lexLe; rewrite Hx, Hy;
      rewrite Nat.ltb_irrefl;
      destruct (AddressIndex x <? AddressIndex y) eqn:Hlt; try done;
      rewrite ?Nat.ltb_lt, ?Nat.ltb_ge in *; intros _; lia.
Qed.

(** X9: when the workers only vary one of the two indexes (every key they
    return has the same address index, or every key the same account index), a
    successful search returns its keys in lexicographic order. *)
Theorem search_sorted_when_workers_fix_one_index
    fixedTaskSize doGenerateKeys fuel sched ctx params m cs started keys c :
  ((∀ t found, doGenerateKeys t m cs = inr found →
      Forall (λ k, AddressIndex k = c) found)
   ∨ (∀ t found, doGenerateKeys t m cs = inr found →
        Forall (λ k, AccountIndex k = c) found)) →
  generateKeysInParallel fixedTaskSize doGenerateKeys fuel sched ctx params m cs
  = (started, Some (keys, None)) →
  StronglySorted lexLe keys.
Proof.
  intros Hfix Hrun.
  destruct (generateKeysInParallel_success _ _ _ _ _ _ _ _ _ _ Hrun)
    as (all & Hloop & -> & _).
  apply (inlineSortKeysByIndexes_sorted all c).
  destruct Hfix as [Hfix|Hfix]; [left|right];
    (eapply searchLoop_Forall; [exact Hfix| |exact Hloop]); constructor.
Qed.

(** X10: the comparator is irreflexive, and two keys that compare "not less"
    both ways have the same index pair; but it is not transitive. *)
Theorem less_irreflexive_not_transitive :
  (∀ a, less a a = false)
  ∧ (∀ a b, less a b = false → less b a = false →
       AccountIndex a = AccountIndex b ∧ AddressIndex a = AddressIndex b)
  ∧ ¬ (∀ a b c, less a b = true → less b c = true → less a c = true).
Proof.
  split_and!.
  - intros a. unfold less. by rewrite !Nat.ltb_irrefl.
  - intros a b Hab Hba.
    assert (¬ (AccountIndex a < AccountIndex b ∨ AddressIndex a < AddressIndex b))
      by (rewrite <- less_spec; congruence).
    assert (¬ (AccountIndex b < AccountIndex a ∨ AddressIndex b < AddressIndex a))
      by (rewrite <- less_spec; congruence).
    lia.
  - intros Htrans.
    specialize (Htrans (mkKey 0 5) (mkKey 1 0) (mkKey 0 1) eq_refl eq_refl).
    discriminate.
Qed.


(** ** The further properties at concrete inputs *)

Lemma search_returns_exactly_the_found_keys_witness :
  searchLoop 2 (demoWorker 100) 5 inOrder context_Background
    (demoFlags 3 2 true) "seed" (demoConstraints (Some 0)) 0 [] 0
  = ([demoTask 0; demoTask 2; demoTask 4; demoTask 6],
     Some (Done (concat (workerKeys (demoWorker 100) "seed"
                           (demoConstraints (Some 0))
                         <$> [demoTask 0; demoTask 2; demoTask 4; demoTask 6]))))
  ∧ [mkKey 0 0; mkKey 2 0; mkKey 4 0; mkKey 6 0]
    ≡ₚ concat (workerKeys (demoWorker 100) "seed" (demoConstraints (Some 0))
               <$> [demoTask 0; demoTask 2; demoTask 4; demoTask 6]).
Proof.
  apply (search_returns_exactly_the_found_keys 2 (demoWorker 100) 5 inOrder
           context_Background (demoFlags 3 2 true) "seed"%string
           (demoConstraints (Some 0))).
  - exact inOrder_valid.
  - reflexivity.
Defined.

Lemma search_terminates_when_batches_progress_witness :
  ∃ started keys,
    generateKeysInParallel 2 steadyWorker 3 inOrder context_Background
      (demoFlags 3 2 true) "seed" (demoConstraints (Some 0))
    = (started, Some (keys, None))
    ∧ 3 ≤ length keys.
Proof.
  apply (search_terminates_when_batches_progress 2 steadyWorker 3 inOrder
           context_Background (demoFlags 3 2 true) "seed"%string
           (demoConstraints (Some 0))).
  - exact inOrder_valid.
  - intros idx t _. reflexivity.
  - intros idx. discriminate.
  - simpl. lia.
Defined.

Lemma search_runs_least_number_of_batches_witness :
  ∃ calls,
    [demoTask 0; demoTask 2; demoTask 4; demoTask 6] = (batches 2 calls 2 0 true).1
    ∧ 3 ≤ length (concat (workerKeys (demoWorker 100) "seed"
                            (demoConstraints (Some 0))
                          <$> [demoTask 0; demoTask 2; demoTask 4; demoTask 6]))
    ∧ ∀ c, c < calls →
        length (concat (workerKeys (demoWorker 100) "seed"
                          (demoConstraints (Some 0))
                        <$> (batches 2 c 2 0 true).1))
        < 3.
Proof.
  apply (search_runs_least_number_of_batches 2 (demoWorker 100) 5 inOrder
           context_Background (demoFlags 3 2 true) "seed"%string
           (demoConstraints (Some 0)) _
           [mkKey 0 0; mkKey 2 0; mkKey 4 0; mkKey 6 0]).
  - exact inOrder_valid.
  - reflexivity.
Defined.

Lemma returned_keys_keep_worker_guarantee_witness :
  Forall (λ k, AddressIndex k = 0) [mkKey 0 0; mkKey 2 0; mkKey 4 0; mkKey 6 0].
Proof.
  apply (returned_keys_keep_worker_guarantee 2 steadyWorker
           (λ k, AddressIndex k = 0) 5 inOrder context_Background
           (demoFlags 3 2 true) "seed"%string (demoConstraints (Some 0))
           [demoTask 0; demoTask 2; demoTask 4; demoTask 6]).
  - intros t found [= <-]. repeat constructor.
  - reflexivity.
Defined.

Lemma generateKeys_exports_numKeys_keys_witness :
  length [mkKey 0 0; mkKey 2 0; mkKey 4 0] = 3
  ∧ completion (generateKeys 2 steadyWorker demoNewExporter demoExportKeys 5
                  inOrder (demoFlags 3 2 true) (inr "seed"%string))
    = Some (Return (demoExportKeys [mkKey 0 0; mkKey 2 0; mkKey 4 0]))
  ∧ ∃ mnemonic cs,
      @inr error string "seed" = inr mnemonic
      ∧ newConstraints 2 (Some 0) None = inr cs
      ∧ ((∀ t found, steadyWorker t mnemonic cs = inr found →
            Forall (λ k, AddressIndex k = 0) found) →
         Forall (λ k, AddressIndex k = 0) [mkKey 0 0; mkKey 2 0; mkKey 4 0]).
Proof.
  apply (generateKeys_exports_numKeys_keys 2 steadyWorker demoNewExporter
           demoExportKeys (λ k, AddressIndex k = 0) 5 inOrder
           (demoFlags 3 2 true) (inr "seed"%string)).
  reflexivity.
Defined.

Lemma sort_leaves_ordered_input_unchanged_witness :
  inlineSortKeysByIndexes [mkKey 0 0; mkKey 2 0; mkKey 4 0]
  = [mkKey 0 0; mkKey 2 0; mkKey 4 0].
Proof.
  apply sort_leaves_ordered_input_unchanged.
  intros [|[|j]] x y Hx Hy; simpl in *; simplify_eq; reflexivity.
Defined.

Lemma sort_is_lexicographic_when_one_index_is_fixed_witness :
  StronglySorted lexLe
    (inlineSortKeysByIndexes [mkKey 3 0; mkKey 1 0; mkKey 2 0]).
Proof.
  apply (sort_is_lexicographic_when_one_index_is_fixed _ 0).
  left. repeat constructor.
Defined.

Lemma search_sorted_when_workers_fix_one_index_witness :
  StronglySorted lexLe [mkKey 0 0; mkKey 2 0; mkKey 4 0; mkKey 6 0].
Proof.
  apply (search_sorted_when_workers_fix_one_index 2 steadyWorker 5 inOrder
           context_Background (demoFlags 3 2 true) "seed"%string
           (demoConstraints (Some 0))
           [demoTask 0; demoTask 2; demoTask 4; demoTask 6] _ 0).
  - left. intros t found [= <-]. repeat constructor.
  - reflexivity.
Defined.

(** * trieChecker: properties *)

Module trieCheckerFacts.
Import trieChecker.

(** Membership in a trace written with [::] and [++]. *)
Ltac in_trace :=
  cbn [fst snd];
  repeat (rewrite elem_of_cons || rewrite elem_of_app); auto 20.

Lemma string_pair_ind (P : string → Prop) :
  P EmptyString →
  (∀ c, P (String c EmptyString)) →
  (∀ p q rest, P rest → P (String p (String q rest))) →
  ∀ s, P s.
Proof.
  intros H0 H1 H2.
  assert (∀ s, P s ∧ ∀ c, P (String c s)) as Hboth.
  { induction s as [|c s [IH1 IH2]]; [by split|]. split; [done|].
    intros c'. by apply H2. }
  intros s. apply Hboth.
Qed.

(** A string that decodes without error has two digits per byte. *)
Lemma hex_Decode_length s bytes :
  hex_Decode s = (bytes, None) → String.length s = 2 * length bytes.
Proof.
  revert bytes. induction s as [|c|p q rest IH] using string_pair_ind;
    intros bytes Hdec.
  - by injection Hdec as <-.
  - simpl in Hdec. by destruct (fromHexChar c).
  - simpl in Hdec. destruct (fromHexChar p); [|done].
    destruct (fromHexChar q); [|done].
    destruct (hex_Decode rest) as [bs err]. injection Hdec as <- ->.
    simpl. rewrite (IH bs eq_refl). lia.
Qed.

(** X11: a root hash that is not given as exactly 64 hex digits makes
    [startProcess] return an error before the database is touched. *)
Theorem startProcess_rejects_bad_root_hash env flagsConfig :
  String.length (HexRootHash flagsConfig) ≠ 64
  ∨ (hex_DecodeString (HexRootHash flagsConfig)).2 ≠ None →
  ∃ trace err,
    startProcess env flagsConfig = (trace, inl err)
    ∧ Forall (λ ev, touchesDB ev = false) trace.
Proof.
  intros Hbad. unfold startProcess, check, emit, call, fail.
  cbn [mbind Run_bind mret Run_ret].
  destruct (AttachFileLogger env) as [e|].
  { eexists _, _. split; [done|]. by repeat constructor. }
  destruct (SetLogLevel env _) as [e|].
  { eexists _, _. split; [done|]. by repeat constructor. }
  unfold hex_DecodeString in *.
  destruct (hex_Decode (HexRootHash flagsConfig)) as [rootHash [e|]] eqn:Hdec.
  { eexists _, _. split; [done|]. by repeat constructor. }
  apply hex_Decode_length in Hdec.
  cbn [mbind Run_bind mret Run_ret snd] in *.
  destruct (length rootHash =? rootHashLength) eqn:Hlen.
  { apply Nat.eqb_eq in Hlen. unfold rootHashLength in Hlen.
    destruct Hbad as [Hbad|Hbad]; [lia|done]. }
  eexists _, _. split; [done|]. by repeat constructor.
Qed.

Lemma iterateDataTries_ok tr entries n :
  Forall (λ entry, GetAllLeavesOnChannel tr entry.2
                   = inr (leavesUnder tr entry.2)) entries →
  iterateDataTries tr entries n
  = (concat (traversalEvents <$> entries),
     inr (n + sum_list_with (λ entry, length (leavesUnder tr entry.2)) entries)).
Proof.
  revert n. induction entries as [|[a h] entries IH]; intros n Hok.
  - simpl. by rewrite Nat.add_0_r.
  - apply Forall_cons in Hok as [Hh Hok]. simpl in Hh.
    cbn [iterateDataTries]. unfold emit, call.
    cbn [mbind Run_bind]. rewrite Hh. rewrite (IH _ Hok).
    simpl. do 2 f_equal. lia.
Qed.

Lemma iterateDataTries_fails tr entries n :
  Exists (λ entry, GetAllLeavesOnChannel tr entry.2
                   ≠ inr (leavesUnder tr entry.2)) entries →
  ∃ done entry err,
    done ++ [entry] `prefix_of` entries
    ∧ Forall (λ entry, GetAllLeavesOnChannel tr entry.2
                       = inr (leavesUnder tr entry.2)) done
    ∧ GetAllLeavesOnChannel tr entry.2 = inl err
    ∧ iterateDataTries tr entries n
      = (concat (traversalEvents <$> (done ++ [entry])),
         inl (FromCollaborator err)).
Proof.
  revert n. induction entries as [|[a h] entries IH]; intros n Hex.
  - by apply Exists_nil in Hex.
  - cbn [iterateDataTries]. unfold emit, call. cbn [mbind Run_bind].
    destruct (GetAllLeavesOnChannel tr h) as [err|leaves] eqn:Hh.
    + exists [], (a, h), err. split_and!; [|done|done|done].
      by exists entries.
    + apply Exists_cons in Hex as [Hex|Hex].
      { exfalso. apply Hex. simpl. unfold leavesUnder. by rewrite Hh. }
      destruct (IH (n + length leaves) Hex)
        as (done & entry & err & [rest Hpre] & Hdone & Herr & ->).
      exists ((a, h) :: done), entry, err. split_and!; [| |done|done].
      * exists rest. simpl. by rewrite Hpre.
      * constructor; [|done]. simpl. unfold leavesUnder. by rewrite Hh.
Qed.

Lemma iterateDataTries_trace tr entries n :
  ∃ visited,
    visited `prefix_of` entries
    ∧ (iterateDataTries tr entries n).1 = concat (traversalEvents <$> visited).
Proof.
  revert n. induction entries as [|[a h] entries IH]; intros n.
  - by exists [].
  - cbn [iterateDataTries]. unfold emit, call. cbn [mbind Run_bind].
    destruct (GetAllLeavesOnChannel tr h) as [err|leaves].
    + exists [(a, h)]. split; [by exists entries|done].
    + destruct (IH (n + length leaves)) as (visited & [rest Hpre] & Htrace).
      destruct (iterateDataTries tr entries _) as [t r]. simpl in *. subst t.
      exists ((a, h) :: visited). split; [|done].
      exists rest. simpl. by rewrite Hpre.
Qed.

Lemma traversalEvents_no_close visited :
  Forall (λ ev, ev ≠ CallClose ∧ ∀ msg values, ev ≠ LogInfo msg values)
    (concat (traversalEvents <$> visited)).
Proof.
  induction visited as [|entry visited IH]; simpl; [constructor|].
  by repeat (constructor; [done|]).
Qed.

Lemma traversedRoots_traversalEvents entries :
  traversedRoots (concat (traversalEvents <$> entries)) = entries.*2.
Proof.
  induction entries as [|entry entries IH]; [done|].
  simpl. f_equal. exact IH.
Qed.

(** The counters after the loop over the main trie's leaves. *)
Lemma leaf_kinds env kv :
  match Unmarshal env (Value kv) with
  | inl _ => isCodeNode env kv = true ∧ hasDataTrie env kv = false
  | inr acct =>
      isCodeNode env kv = false
      ∧ hasDataTrie env kv = negb (length (RootHash acct) =? 0)
  end.
Proof. unfold isCodeNode, hasDataTrie. by destruct (Unmarshal env (Value kv)). Qed.

Lemma foldl_scanLeaf env conv leaves a c m :
  ∃ m',
    foldl (scanLeaf env conv) (a, c, m) leaves
    = (a + length leaves,
       c + length (filter (λ kv, isCodeNode env kv = true) leaves), m')
    ∧ size m' ≤ size m + length (filter (λ kv, hasDataTrie env kv = true) leaves)
    ∧ ∀ addr,
        is_Some (m' !! addr)
        ↔ is_Some (m !! addr)
          ∨ ∃ kv, kv ∈ leaves ∧ hasDataTrie env kv = true ∧ conv (Key kv) = addr.
Proof.
  revert a c m. induction leaves as [|kv leaves IH]; intros a c m.
  - exists m. split_and!; [by rewrite !Nat.add_0_r|simpl; lia|].
    intros addr. split; [by left|]. intros [?|(kv & Hin & _)]; [done|].
    by apply elem_of_nil in Hin.
  - cbn [foldl]. unfold scanLeaf at 2.
    pose proof (leaf_kinds env kv) as Hkind.
    destruct (Unmarshal env (Value kv)) as [err|acct] eqn:Hun;
      [|destruct (length (RootHash acct) =? 0) eqn:Hroot];
      destruct Hkind as [Hcode Hdata]; simpl in Hdata.
    + destruct (IH (S a) (S c) m) as (m' & -> & Hsize & Hdom).
      exists m'. rewrite filter_cons_True by done.
      rewrite filter_cons_False by (by rewrite Hdata).
      split_and!; [|done|].
      { apply (f_equal2 pair); [apply (f_equal2 pair)|]; simpl; try lia; done. }
      intros addr. rewrite Hdom. split; intros [?|(kv' & Hin & Hdt & Hk)];
        [by left|right|by left|].
      * exists kv'. split_and!; [by apply list_elem_of_further|done|done].
      * apply elem_of_cons in Hin as [->|Hin]; [congruence|].
        right. by exists kv'.
    + destruct (IH (S a) c m) as (m' & -> & Hsize & Hdom).
      exists m'. rewrite filter_cons_False by (by rewrite Hcode).
      rewrite filter_cons_False by (by rewrite Hdata).
      split_and!; [|done|].
      { apply (f_equal2 pair); [apply (f_equal2 pair)|]; simpl; try lia; done. }
      intros addr. rewrite Hdom. split; intros [?|(kv' & Hin & Hdt & Hk)];
        [by left|right|by left|].
      * exists kv'. split_and!; [by apply list_elem_of_further|done|done].
      * apply elem_of_cons in Hin as [->|Hin]; [congruence|].
        right. by exists kv'.
    + destruct (IH (S a) c (<[conv (Key kv):=RootHash acct]> m))
        as (m' & -> & Hsize & Hdom).
      exists m'. rewrite filter_cons_False by (by rewrite Hcode).
      rewrite filter_cons_True by done.
      split_and!.
      { apply (f_equal2 pair); [apply (f_equal2 pair)|]; simpl; try lia; done. }
      { pose proof (map_size_insert (conv (Key kv)) (RootHash acct) m) as Hins.
        destruct (m !! conv (Key kv)); simpl in *; lia. }
      intros addr. rewrite Hdom.
      destruct (decide (conv (Key kv) = addr)) as [Heq|Hne].
      * split; intros _; [|left; subst addr; by rewrite lookup_insert_eq].
        right. exists kv. split_and!; [apply list_elem_of_here|done|done].
      * rewrite lookup_insert_ne by done.
        split; intros [?|(kv' & Hin & Hdt & Hk)]; [by left|right|by left|].
        -- exists kv'. split_and!; [by apply list_elem_of_further|done|done].
        -- apply elem_of_cons in Hin as [->|Hin]; [done|].
           right. by exists kv'.
Qed.

Lemma code_nodes_and_data_tries env leaves :
  length (filter (λ kv, isCodeNode env kv = true) leaves)
  + length (filter (λ kv, hasDataTrie env kv = true) leaves)
  ≤ length leaves.
Proof.
  induction leaves as [|kv leaves IH]; [done|].
  pose proof (leaf_kinds env kv) as Hkind.
  destruct (isCodeNode env kv) eqn:Hcode.
  - assert (hasDataTrie env kv = false) as Hdata.
    { destruct (Unmarshal env (Value kv)); destruct Hkind; congruence. }
    rewrite filter_cons_True by done.
    rewrite filter_cons_False by (by rewrite Hdata). simpl. lia.
  - rewrite filter_cons_False by (by rewrite Hcode).
    destruct (hasDataTrie env kv) eqn:Hdata.
    + rewrite filter_cons_True by done. simpl. lia.
    + rewrite filter_cons_False by (by rewrite Hdata). simpl. lia.
Qed.

Lemma scanLeaves_spec env conv leaves :
  ∃ m,
    scanLeaves env conv leaves
    = (length leaves, length (filter (λ kv, isCodeNode env kv = true) leaves), m)
    ∧ size m ≤ length (filter (λ kv, hasDataTrie env kv = true) leaves)
    ∧ (size m = 0 ↔ Forall (λ kv, hasDataTrie env kv = false) leaves).
Proof.
  destruct (foldl_scanLeaf env conv leaves 0 0 ∅) as (m & Hscan & Hsize & Hdom).
  exists m. unfold scanLeaves. rewrite Hscan. split_and!; [done| |].
  - by rewrite map_size_empty in Hsize.
  - rewrite map_size_empty_iff. split.
    + intros -> . apply Forall_forall. intros kv Hin.
      destruct (hasDataTrie env kv) eqn:Hdt; [|done].
      assert (is_Some ((∅ : gmap string (list Z)) !! conv (Key kv))) as [h Hh].
      { apply Hdom. right. by exists kv. }
      by rewrite lookup_empty in Hh.
    + intros Hall. apply map_empty. intros addr.
      apply eq_None_not_Some. intros [Hs|(kv & Hin & Hdt & _)]%Hdom.
      * rewrite lookup_empty in Hs. by destruct Hs.
      * rewrite Forall_forall in Hall. rewrite (Hall kv Hin) in Hdt. done.
Qed.

(** The addresses in the map are those of the accounts with a root hash. *)
Lemma scanLeaves_size env conv leaves :
  size (scanLeaves env conv leaves).2
  = size (list_to_set ((λ kv, conv (Key kv))
                         <$> filter (λ kv, hasDataTrie env kv = true) leaves)
          : gset string).
Proof.
  destruct (foldl_scanLeaf env conv leaves 0 0 ∅) as (m & Hscan & _ & Hdom).
  unfold scanLeaves. rewrite Hscan. cbn [snd]. rewrite <- size_dom. f_equal.
  apply set_eq. intros addr.
  rewrite elem_of_dom, Hdom, elem_of_list_to_set, list_elem_of_fmap. split.
  - intros [Hs|(kv & Hin & Hdt & Hk)].
    + rewrite lookup_empty in Hs. by destruct Hs.
    + exists kv. split; [done|]. by apply list_elem_of_filter.
  - intros (kv & -> & [Hdt Hin]%list_elem_of_filter). right. by exists kv.
Qed.

Lemma checkTrieBody_main_fails env conv tr root err :
  GetAllLeavesOnChannel tr root = inl err →
  checkTrieBody env conv tr root
  = ([CallGetAllLeaves root], inl (FromCollaborator err)).
Proof. intros Hroot. unfold checkTrieBody, call. cbn [mbind Run_bind]. by rewrite Hroot. Qed.

Lemma checkTrieBody_unfold env conv tr root leaves a c m :
  GetAllLeavesOnChannel tr root = inr leaves →
  scanLeaves env conv leaves = (a, c, m) →
  checkTrieBody env conv tr root
  = let main := [CallGetAllLeaves root; LogInfo "parsed main trie" [a; c; size m]] in
    if size m =? 0 then (main, inr tt)
    else
      match iterateDataTries tr (mapRange env m) 0 with
      | (trace, inl err) => (main ++ trace, inl err)
      | (trace, inr n) =>
          (main ++ trace ++ [LogInfo "parsed all tries" [a; c; size m; n]], inr tt)
      end.
Proof.
  intros Hroot Hscan. unfold checkTrieBody, call, emit.
  cbn [mbind Run_bind]. rewrite Hroot, Hscan. cbn [mbind Run_bind app].
  destruct (size m =? 0); [done|]. cbn [mbind Run_bind].
  by destruct (iterateDataTries tr (mapRange env m) 0) as [trace [err|n]].
Qed.

Lemma checkTrie_unfold env flags root maxDBValue conv tr :
  NewBech32PubkeyConverter env addressLength = inr conv →
  GetTrie env flags maxDBValue = inr tr →
  checkTrie env flags root maxDBValue
  = ([CallNewConverter addressLength; CallGetTrie maxDBValue]
       ++ (checkTrieBody env conv tr root).1 ++ closeEvents tr,
     (checkTrieBody env conv tr root).2).
Proof.
  intros Hconv Htr. unfold checkTrie, call, deferClose, closeEvents.
  cbn [mbind Run_bind]. rewrite Hconv, Htr. cbn [mbind Run_bind].
  by destruct (checkTrieBody env conv tr root).
Qed.

Lemma checkTrieBody_no_close env conv tr root :
  Forall (λ ev, ev ≠ CallClose) (checkTrieBody env conv tr root).1.
Proof.
  destruct (GetAllLeavesOnChannel tr root) as [err|leaves] eqn:Hroot.
  - rewrite (checkTrieBody_main_fails _ _ _ _ err) by done. by repeat constructor.
  - destruct (scanLeaves env conv leaves) as [[a c] m] eqn:Hscan.
    rewrite (checkTrieBody_unfold _ _ _ _ leaves a c m) by done. cbn zeta.
    destruct (size m =? 0); [by repeat constructor|].
    destruct (iterateDataTries_trace tr (mapRange env m) 0)
      as (visited & _ & Htrace).
    pose proof (traversalEvents_no_close visited) as Hno.
    destruct (iterateDataTries tr (mapRange env m) 0) as [trace [err|n]];
      simpl in *; subst trace;
      repeat (constructor; [done|]);
      rewrite ?Forall_app; repeat split;
      try (eapply Forall_impl; [exact Hno|by intros ev [? _]]);
      by repeat constructor.
Qed.

(** X12: once the trie is open, [checkTrie] closes it exactly once, as the
    last thing it does, however the check ends; an error of [Close] is logged
    and does not change the result. *)
Theorem checkTrie_closes_the_trie_once env flags root maxDBValue conv tr :
  NewBech32PubkeyConverter env addressLength = inr conv →
  GetTrie env flags maxDBValue = inr tr →
  ∃ body,
    (checkTrie env flags root maxDBValue).1
    = [CallNewConverter addressLength; CallGetTrie maxDBValue]
        ++ body ++ closeEvents tr
    ∧ (CallClose ∉ body)
    ∧ (checkTrie env flags root maxDBValue).2
      = (checkTrieBody env conv tr root).2.
Proof.
  intros Hconv Htr. rewrite (checkTrie_unfold _ _ _ _ conv tr) by done.
  exists (checkTrieBody env conv tr root).1. split_and!; [done| |done].
  pose proof (checkTrieBody_no_close env conv tr root) as Hno.
  rewrite Forall_forall in Hno. intros Hin. by apply (Hno _ Hin).
Qed.

(** X13: the line logged after the main trie reports the number of leaves,
    the number of leaves that do not unmarshal as accounts, and the number of
    distinct addresses of accounts with a root hash; the last is zero exactly
    when no account has a root hash. *)
Theorem checkTrie_reports_main_trie_counts
    env flags root maxDBValue conv tr leaves :
  NewBech32PubkeyConverter env addressLength = inr conv →
  GetTrie env flags maxDBValue = inr tr →
  GetAllLeavesOnChannel tr root = inr leaves →
  ∃ numDataTries,
    LogInfo "parsed main trie"
      [length leaves;
       length (filter (λ kv, isCodeNode env kv = true) leaves);
       numDataTries]
    ∈ (checkTrie env flags root maxDBValue).1
    ∧ numDataTries
      = size (list_to_set ((λ kv, conv (Key kv))
                             <$> filter (λ kv, hasDataTrie env kv = true) leaves)
              : gset string)
    ∧ numDataTries ≤ length (filter (λ kv, hasDataTrie env kv = true) leaves)
    ∧ length (filter (λ kv, isCodeNode env kv = true) leaves) + numDataTries
      ≤ length leaves
    ∧ (numDataTries = 0 ↔ Forall (λ kv, hasDataTrie env kv = false) leaves).
Proof.
  intros Hconv Htr Hroot.
  pose proof (scanLeaves_size env conv leaves) as Hdistinct.
  destruct (scanLeaves_spec env conv leaves) as (m & Hscan & Hsize & Hzero).
  rewrite Hscan in Hdistinct. cbn [snd] in Hdistinct.
  exists (size m). split_and!; [|done|done| |done].
  - rewrite (checkTrie_unfold _ _ _ _ conv tr) by done.
    rewrite (checkTrieBody_unfold _ _ _ _ leaves _ _ m) by done. cbn zeta.
    destruct (size m =? 0); [in_trace|].
    destruct (iterateDataTries tr (mapRange env m) 0) as [trace [err|n]];
      in_trace.
  - pose proof (code_nodes_and_data_tries env leaves). lia.
Qed.

(** X14: when no account of the main trie has a root hash, [checkTrie]
    traverses the main trie only and returns nil. *)
Theorem checkTrie_stops_without_data_tries
    env flags root maxDBValue conv tr leaves :
  NewBech32PubkeyConverter env addressLength = inr conv →
  GetTrie env flags maxDBValue = inr tr →
  GetAllLeavesOnChannel tr root = inr leaves →
  Forall (λ kv, hasDataTrie env kv = false) leaves →
  checkTrie env flags root maxDBValue
  = ([CallNewConverter addressLength; CallGetTrie maxDBValue;
      CallGetAllLeaves root;
      LogInfo "parsed main trie"
        [length leaves;
         length (filter (λ kv, isCodeNode env kv = true) leaves); 0]]
       ++ closeEvents tr,
     inr tt).
Proof.
  intros Hconv Htr Hroot Hnone.
  destruct (scanLeaves_spec env conv leaves) as (m & Hscan & _ & Hzero).
  apply Hzero in Hnone.
  rewrite (checkTrie_unfold _ _ _ _ conv tr) by done.
  rewrite (checkTrieBody_unfold _ _ _ _ leaves _ _ m) by done. cbn zeta.
  by rewrite Hnone.
Qed.

(** X15: when every data trie can be traversed, [checkTrie] returns nil
    after traversing the main trie first and then each data trie once, and the
    total it logs is the sum of the leaves of the data tries, in whatever order
    the runtime ranges over the map. *)
Theorem checkTrie_counts_data_trie_leaves
    env flags root maxDBValue conv tr leaves :
  NewBech32PubkeyConverter env addressLength = inr conv →
  GetTrie env flags maxDBValue = inr tr →
  GetAllLeavesOnChannel tr root = inr leaves →
  let dataTries := (scanLeaves env conv leaves).2 in
  mapRange env dataTries ≡ₚ map_to_list dataTries →
  dataTries ≠ ∅ →
  (∀ address dataRootHash,
     dataTries !! address = Some dataRootHash →
     GetAllLeavesOnChannel tr dataRootHash = inr (leavesUnder tr dataRootHash)) →
  (checkTrie env flags root maxDBValue).2 = inr tt
  ∧ LogInfo "parsed all tries"
      [length leaves;
       length (filter (λ kv, isCodeNode env kv = true) leaves);
       size dataTries;
       sum_list_with (λ entry, length (leavesUnder tr entry.2))
         (map_to_list dataTries)]
    ∈ (checkTrie env flags root maxDBValue).1
  ∧ traversedRoots (checkTrie env flags root maxDBValue).1
    ≡ₚ root :: (map_to_list dataTries).*2
  ∧ ∃ dataRoots,
      traversedRoots (checkTrie env flags root maxDBValue).1 = root :: dataRoots
      ∧ dataRoots ≡ₚ (map_to_list dataTries).*2.
Proof.
  intros Hconv Htr Hroot dataTries Hperm Hne Hok.
  destruct (scanLeaves_spec env conv leaves) as (m & Hscan & _ & _).
  assert (dataTries = m) as Hm by (unfold dataTries; by rewrite Hscan).
  rewrite Hm in *. clear dataTries Hm.
  rewrite (checkTrie_unfold _ _ _ _ conv tr) by done.
  rewrite (checkTrieBody_unfold _ _ _ _ leaves _ _ m) by done. cbn zeta.
  assert ((size m =? 0) = false) as ->.
  { apply Nat.eqb_neq. by rewrite map_size_empty_iff. }
  rewrite iterateDataTries_ok.
  2:{ apply Forall_forall. intros [a h] Hin. rewrite Hperm in Hin.
      apply elem_of_map_to_list in Hin. by eapply Hok. }
  cbn [fst snd].
  assert (sum_list_with (λ entry, length (leavesUnder tr entry.2)) (mapRange env m)
          = sum_list_with (λ entry, length (leavesUnder tr entry.2))
              (map_to_list m)) as -> by (by rewrite Hperm).
  set (trace := [CallNewConverter addressLength; CallGetTrie maxDBValue] ++ _).
  assert (traversedRoots trace = root :: (mapRange env m).*2) as Hroots.
  { unfold trace, traversedRoots. cbn [app omap list_omap]. f_equal.
    rewrite !omap_app.
    fold (traversedRoots (concat (traversalEvents <$> mapRange env m))).
    rewrite traversedRoots_traversalEvents.
    assert (omap (λ ev, match ev with CallGetAllLeaves h => Some h | _ => None end)
              (closeEvents tr) = []) as ->.
    { unfold closeEvents. by destruct (Close tr). }
    simpl. by rewrite !app_nil_r. }
  split_and!; [done| | |].
  - unfold trace. in_trace.
  - rewrite Hroots. by apply Permutation_skip, fmap_Permutation.
  - exists (mapRange env m).*2. split; [done|]. by apply fmap_Permutation.
Qed.

(** X16: when the traversal of a data trie fails, [checkTrie] returns that
    error, logs no final summary and still closes the trie. *)
Theorem checkTrie_returns_data_trie_error
    env flags root maxDBValue conv tr leaves address dataRootHash err0 :
  NewBech32PubkeyConverter env addressLength = inr conv →
  GetTrie env flags maxDBValue = inr tr →
  GetAllLeavesOnChannel tr root = inr leaves →
  let dataTries := (scanLeaves env conv leaves).2 in
  mapRange env dataTries ≡ₚ map_to_list dataTries →
  dataTries !! address = Some dataRootHash →
  GetAllLeavesOnChannel tr dataRootHash = inl err0 →
  ∃ address' dataRootHash' err,
    dataTries !! address' = Some dataRootHash'
    ∧ GetAllLeavesOnChannel tr dataRootHash' = inl err
    ∧ (checkTrie env flags root maxDBValue).2 = inl (FromCollaborator err)
    ∧ (∀ values, LogInfo "parsed all tries" values
                 ∉ (checkTrie env flags root maxDBValue).1)
    ∧ CallClose ∈ (checkTrie env flags root maxDBValue).1.
Proof.
  intros Hconv Htr Hroot dataTries Hperm Hlook Hfail.
  destruct (scanLeaves_spec env conv leaves) as (m & Hscan & _ & _).
  assert (dataTries = m) as Hm by (unfold dataTries; by rewrite Hscan).
  rewrite Hm in *. clear dataTries Hm.
  rewrite (checkTrie_unfold _ _ _ _ conv tr) by done.
  rewrite (checkTrieBody_unfold _ _ _ _ leaves _ _ m) by done. cbn zeta.
  assert ((size m =? 0) = false) as ->.
  { apply Nat.eqb_neq. rewrite map_size_empty_iff. intros ->.
    by rewrite lookup_empty in Hlook. }
  destruct (iterateDataTries_fails tr (mapRange env m) 0)
    as (visited & [a h] & err & Hpre & _ & Herr & ->).
  { apply Exists_exists. exists (address, dataRootHash). split.
    - rewrite Hperm. by apply elem_of_map_to_list.
    - simpl. by rewrite Hfail. }
  exists a, h, err. cbn [fst snd]. split_and!; [|done|done| |].
  - apply elem_of_map_to_list. rewrite <- Hperm.
    destruct Hpre as [rest ->]. in_trace.
  - assert (Forall (λ ev, ∀ values, ev ≠ LogInfo "parsed all tries" values)
              ([CallNewConverter addressLength; CallGetTrie maxDBValue]
                 ++ ([CallGetAllLeaves root;
                      LogInfo "parsed main trie"
                        [length leaves;
                         length (filter (λ kv, isCodeNode env kv = true) leaves);
                         size m]]
                       ++ concat (traversalEvents <$> visited ++ [(a, h)]))
                 ++ closeEvents tr)) as Hall.
    { rewrite !Forall_app, !Forall_cons. split_and!; try done.
      - eapply Forall_impl; [apply traversalEvents_no_close|].
        intros ev [_ Hlog] values. apply Hlog.
      - unfold closeEvents. destruct (Close tr); by repeat constructor. }
    rewrite Forall_forall in Hall. intros values Hin. by apply (Hall _ Hin values).
  - unfold closeEvents. in_trace.
Qed.

(** ** The properties on the small trie *)

Lemma startProcess_rejects_bad_root_hash_witness :
  ∃ trace err,
    startProcess (demoEnv None) (demoFlagsConfig "00ff") = (trace, inl err)
    ∧ Forall (λ ev, touchesDB ev = false) trace.
Proof.
  apply startProcess_rejects_bad_root_hash. left. simpl. lia.
Defined.

Lemma checkTrie_closes_the_trie_once_witness :
  ∃ body,
    (checkTrie (demoEnv (Some (ExternalError "close"))) (demoFlagsConfig "")
       [6%Z] 3).1
    = [CallNewConverter addressLength; CallGetTrie 3]
        ++ body ++ closeEvents (demoTrie (Some (ExternalError "close")))
    ∧ (CallClose ∉ body)
    ∧ (checkTrie (demoEnv (Some (ExternalError "close"))) (demoFlagsConfig "")
         [6%Z] 3).2
      = (checkTrieBody (demoEnv (Some (ExternalError "close"))) demoEncode
           (demoTrie (Some (ExternalError "close"))) [6%Z]).2.
Proof.
  apply (checkTrie_closes_the_trie_once
           (demoEnv (Some (ExternalError "close"))) (demoFlagsConfig "")
           [6%Z] 3 demoEncode (demoTrie (Some (ExternalError "close"))));
    reflexivity.
Defined.

Lemma checkTrie_reports_main_trie_counts_witness :
  ∃ numDataTries,
    LogInfo "parsed main trie"
      [length (leavesUnder (demoTrie None) demoMainRoot);
       length (filter (λ kv, isCodeNode (demoEnv None) kv = true)
                 (leavesUnder (demoTrie None) demoMainRoot));
       numDataTries]
    ∈ (checkTrie (demoEnv None) (demoFlagsConfig "") demoMainRoot 3).1
    ∧ numDataTries
      = size (list_to_set ((λ kv, demoEncode (Key kv))
                             <$> filter (λ kv, hasDataTrie (demoEnv None) kv = true)
                                   (leavesUnder (demoTrie None) demoMainRoot))
              : gset string)
    ∧ numDataTries
      ≤ length (filter (λ kv, hasDataTrie (demoEnv None) kv = true)
                  (leavesUnder (demoTrie None) demoMainRoot))
    ∧ length (filter (λ kv, isCodeNode (demoEnv None) kv = true)
                (leavesUnder (demoTrie None) demoMainRoot)) + numDataTries
      ≤ length (leavesUnder (demoTrie None) demoMainRoot)
    ∧ (numDataTries = 0
       ↔ Forall (λ kv, hasDataTrie (demoEnv None) kv = false)
           (leavesUnder (demoTrie None) demoMainRoot)).
Proof.
  apply (checkTrie_reports_main_trie_counts (demoEnv None) (demoFlagsConfig "")
           demoMainRoot 3 demoEncode (demoTrie None)); reflexivity.
Defined.

Lemma checkTrie_stops_without_data_tries_witness :
  checkTrie (demoEnv None) (demoFlagsConfig "") [5%Z] 3
  = ([CallNewConverter addressLength; CallGetTrie 3; CallGetAllLeaves [5%Z];
      LogInfo "parsed main trie"
        [length (leavesUnder (demoTrie None) [5%Z]);
         length (filter (λ kv, isCodeNode (demoEnv None) kv = true)
                   (leavesUnder (demoTrie None) [5%Z])); 0]]
       ++ closeEvents (demoTrie None),
     inr tt).
Proof.
  apply (checkTrie_stops_without_data_tries (demoEnv None) (demoFlagsConfig "")
           [5%Z] 3 demoEncode (demoTrie None)); try reflexivity.
  repeat constructor.
Defined.

Lemma checkTrie_counts_data_trie_leaves_witness :
  (checkTrie (demoEnv None) (demoFlagsConfig "") demoMainRoot 3).2 = inr tt
  ∧ LogInfo "parsed all tries" [4; 1; 2; 3]
    ∈ (checkTrie (demoEnv None) (demoFlagsConfig "") demoMainRoot 3).1.
Proof.
  pose proof (checkTrie_counts_data_trie_leaves (demoEnv None)
                (demoFlagsConfig "") demoMainRoot 3 demoEncode (demoTrie None)
                (leavesUnder (demoTrie None) demoMainRoot)
                eq_refl eq_refl eq_refl) as Hthm.
  cbn zeta in Hthm. destruct Hthm as (Hres & Hlog & _).
  - reflexivity.
  - intros Hempty. apply map_to_list_empty_iff in Hempty.
    vm_compute in Hempty. discriminate.
  - intros address dataRootHash Hlook. apply elem_of_map_to_list in Hlook.
    vm_compute in Hlook.
    repeat (apply elem_of_cons in Hlook as [Hlook|Hlook];
            [injection Hlook as -> ->; reflexivity|]).
    by apply elem_of_nil in Hlook.
  - split; [exact Hres|]. vm_compute. vm_compute in Hlog. exact Hlog.
Defined.

Lemma checkTrie_returns_data_trie_error_witness :
  ∃ address' dataRootHash' err,
    (scanLeaves (demoEnv None) demoEncode (leavesUnder (demoTrie None) [6%Z])).2
      !! address' = Some dataRootHash'
    ∧ GetAllLeavesOnChannel (demoTrie None) dataRootHash' = inl err
    ∧ (checkTrie (demoEnv None) (demoFlagsConfig "") [6%Z] 3).2
      = inl (FromCollaborator err)
    ∧ (∀ values, LogInfo "parsed all tries" values
                 ∉ (checkTrie (demoEnv None) (demoFlagsConfig "") [6%Z] 3).1)
    ∧ CallClose ∈ (checkTrie (demoEnv None) (demoFlagsConfig "") [6%Z] 3).1.
Proof.
  apply (checkTrie_returns_data_trie_error (demoEnv None) (demoFlagsConfig "")
           [6%Z] 3 demoEncode (demoTrie None)
           (leavesUnder (demoTrie None) [6%Z]) "erd2" [9%Z]
           (ExternalError "no such root")); reflexivity.
Defined.

End trieCheckerFacts.
